(** * Queues: an in-memory multi-queue message broker with long polling

    A shallow embedding of [src/QueueManager.ts] (the core) and of the two
    Express handlers of [src/server.ts] (the adapter), followed by the
    properties the specification states about them.

    JavaScript runs the program on one thread: a call of [addMessage] or
    [getMessage], and the callback of a timer, each run to completion.  The
    embedding therefore makes each of them a function on an explicit
    [State], and an execution a list of [Event]s. *)

From Stdlib Require Import Ascii.
From stdpp Require Import gmap strings list fin_maps pretty.

Local Open Scope Z_scope.

(** ** Data model *)

(** A JavaScript [number] as the program meets it: an integer of
    milliseconds, or [NaN] (what [parseInt] answers on a string without
    digits). *)
Inductive number :=
  | Num (z : Z)
  | NaN.

(** [interface Message], QueueManager.ts lines 10-14. *)
Record Message := mkMessage {
  id : string;
  content : string;
  timestamp : option Z
}.

(** The closures a [WaitingConsumer] stores (lines 98-99).  Each captures
    the [resolve] function of the promise under construction, named here by
    the promise's number. *)
Inductive ResolveFn :=
  | ResolveClosure (p : nat).   (* (message) => resolve(message) *)

Inductive RejectFn :=
  | RejectClosure (p : nat).    (* () => resolve(null) *)

(** [interface WaitingConsumer], lines 17-21; [timeoutId] is the handle
    [setTimeout] returned. *)
Record WaitingConsumer := mkConsumer {
  resolve : ResolveFn;
  reject : RejectFn;
  timeoutId : nat
}.

(** [interface Queue], lines 24-27. *)
Record Queue := mkQueue {
  messages : list Message;
  waitingConsumers : list WaitingConsumer
}.

(** An armed timer: the closure of lines 87-94 (it captures the queue
    object, found again by its name since the registry never replaces an
    entry, and the promise's [resolve]) and the instant the host may run it. *)
Record Timer := mkTimer {
  cb_queue : string;
  cb_resolve : nat;
  due : Z
}.

(** Which piece of code called a promise's [resolve]. *)
Inductive Caller :=
  | ByResolveField       (* consumer.resolve(message), line 60 *)
  | ByRejectField        (* consumer.reject(), the closure of line 99 *)
  | ByTimeoutCallback.   (* resolve(null), line 93 *)

(** One call of a promise's [resolve]: the value is a message or [null]. *)
Record Resolution := mkResolution {
  res_promise : nat;
  res_value : option Message;
  res_by : Caller;
  res_at : Z
}.

(** The state of the process: the registry ([private queues], line 31), the
    host's timers and clock, the counters behind fresh promises, timer
    handles and UUIDs, and the history of [resolve] calls. *)
Record State := mkState {
  queues : gmap string Queue;
  timers : gmap nat Timer;
  next_promise : nat;
  next_timer : nat;
  uuid_calls : nat;
  now : Z;
  trace : list Resolution
}.

Definition init : State :=
  {| queues := ∅; timers := ∅; next_promise := 0; next_timer := 0;
     uuid_calls := 0; now := 0; trace := [] |}.

Definition set_queues (qs : gmap string Queue) (st : State) : State :=
  {| queues := qs; timers := timers st; next_promise := next_promise st;
     next_timer := next_timer st; uuid_calls := uuid_calls st;
     now := now st; trace := trace st |}.

Definition set_timers (ts : gmap nat Timer) (st : State) : State :=
  {| queues := queues st; timers := ts; next_promise := next_promise st;
     next_timer := next_timer st; uuid_calls := uuid_calls st;
     now := now st; trace := trace st |}.

(** ** The host *)

(** The functions of the host the program calls: [randomUUID()], by the
    number of calls made before, and the delay after which
    [setTimeout(cb, timeout)] lets its callback run. *)
Class Host := {
  randomUUID : nat → string;
  timer_delay : number → Z
}.

(** ** Promises and timers *)

(** Calling the [resolve] function of promise [p].  Every call is recorded;
    what the promise settles to is read off the history by
    [promise_state]. *)
Definition promise_resolve (p : nat) (v : option Message) (by_ : Caller)
    (st : State) : State :=
  {| queues := queues st; timers := timers st; next_promise := next_promise st;
     next_timer := next_timer st; uuid_calls := uuid_calls st; now := now st;
     trace := trace st ++ [mkResolution p v by_ (now st)] |}.

(** The [resolve] calls made so far on promise [p]. *)
Definition calls (st : State) (p : nat) : list Resolution :=
  filter (λ r, res_promise r = p) (trace st).

(** A promise settles on the first call of its [resolve] and ignores the
    later ones: [None] is pending, [Some v] settled with [v]. *)
Definition promise_state (st : State) (p : nat) : option (option Message) :=
  res_value <$> head (calls st p).

Definition clearTimeout (t : nat) (st : State) : State :=
  set_timers (delete t (timers st)) st.

(** Invoking the stored closures. *)
Definition call_resolve (f : ResolveFn) (message : Message) (st : State)
    : State :=
  match f with
  | ResolveClosure p => promise_resolve p (Some message) ByResolveField st
  end.

Definition call_reject (f : RejectFn) (st : State) : State :=
  match f with
  | RejectClosure p => promise_resolve p None ByRejectField st
  end.

(** ** QueueManager *)

Definition empty_queue : Queue := {| messages := []; waitingConsumers := [] |}.

(** [getQueue], lines 36-44: the registry after the call and the queue. *)
Definition getQueue (queueName : string) (qs : gmap string Queue)
    : gmap string Queue * Queue :=
  match qs !! queueName with
  | Some queue => (qs, queue)
  | None => (<[queueName := empty_queue]> qs, empty_queue)
  end.

(** [addMessage], lines 53-65. *)
Definition addMessage (queueName : string) (message : Message) (st : State)
    : State :=
  let '(qs, queue) := getQueue queueName (queues st) in
  match waitingConsumers queue with
  | consumer :: rest =>
      let st1 :=
        set_queues (<[queueName := mkQueue (messages queue) rest]> qs) st in
      let st2 := clearTimeout (timeoutId consumer) st1 in
      call_resolve (resolve consumer) message st2
  | [] =>
      set_queues
        (<[queueName := mkQueue (messages queue ++ [message]) []]> qs) st
  end.

(** What [getMessage] hands back: a promise already resolved with a message
    (line 81), or the pending promise of line 85. *)
Inductive Receive :=
  | Immediate (message : Message)
  | Waiting (p : nat).

(** [findIndex(c => c.timeoutId === timeoutId)], line 89; [None] is -1. *)
Definition findIndex (t : nat) (l : list WaitingConsumer) : option nat :=
  fst <$> list_find (λ c, timeoutId c = t) l.

(** The timer callback, lines 87-94, of timer [t] armed as [tm]. *)
Definition onTimeout (t : nat) (tm : Timer) (st : State) : State :=
  let st1 :=
    match queues st !! cb_queue tm with
    | Some queue =>
        match findIndex t (waitingConsumers queue) with
        | Some index =>
            set_queues
              (<[cb_queue tm :=
                   mkQueue (messages queue)
                           (delete index (waitingConsumers queue))]>
                 (queues st)) st
        | None => st
        end
    | None => st
    end in
  promise_resolve (cb_resolve tm) None ByTimeoutCallback st1.

(** The host runs the callback of timer [t]: only of an armed timer, once,
    and not before it is due. *)
Definition fireTimer (t : nat) (st : State) : State :=
  match timers st !! t with
  | Some tm =>
      if bool_decide (due tm ≤ now st)
      then onTimeout t tm (set_timers (delete t (timers st)) st)
      else st
  | None => st
  end.

Definition tick (d : nat) (st : State) : State :=
  {| queues := queues st; timers := timers st; next_promise := next_promise st;
     next_timer := next_timer st; uuid_calls := uuid_calls st;
     now := now st + Z.of_nat d; trace := trace st |}.

(** [getMessage], lines 75-103. *)
Definition getMessage {host : Host} (queueName : string) (timeout : number)
    (st : State) : State * Receive :=
  let '(qs, queue) := getQueue queueName (queues st) in
  match messages queue with
  | message :: rest =>
      (set_queues
         (<[queueName := mkQueue rest (waitingConsumers queue)]> qs) st,
       Immediate message)
  | [] =>
      let p := next_promise st in
      let timeoutId := next_timer st in
      let consumer :=
        mkConsumer (ResolveClosure p) (RejectClosure p) timeoutId in
      ({| queues :=
            <[queueName :=
                mkQueue [] (waitingConsumers queue ++ [consumer])]> qs;
          timers :=
            <[timeoutId := mkTimer queueName p (now st + timer_delay timeout)]>
              (timers st);
          next_promise := S p;
          next_timer := S timeoutId;
          uuid_calls := uuid_calls st;
          now := now st;
          trace := trace st |},
       Waiting p)
  end.

(** ** Query parsing of the adapter *)

(** White space [parseInt] skips, for code units below 256: TAB, LF, VT, FF,
    CR, SP and NBSP. *)
Definition is_space (c : ascii) : bool :=
  bool_decide (nat_of_ascii c ∈ [9; 10; 11; 12; 13; 32; 160]%nat).

Fixpoint trim_start (s : string) : string :=
  match s with
  | String c s' => if is_space c then trim_start s' else s
  | EmptyString => s
  end.

Definition digit_of (c : ascii) : option Z :=
  let n := Z.of_nat (nat_of_ascii c) in
  if bool_decide (48 ≤ n ≤ 57) then Some (n - 48) else None.

(** The value of the longest prefix of decimal digits; [None] when the
    prefix is empty. *)
Fixpoint digits_value (acc : option Z) (s : string) : option Z :=
  match s with
  | String c s' =>
      match digit_of c with
      | Some d => digits_value (Some (10 * default 0 acc + d)) s'
      | None => acc
      end
  | EmptyString => acc
  end.

(** [parseInt(s, 10)] of ECMAScript: leading white space, an optional sign,
    then decimal digits; [NaN] when no digit follows.  The result is the
    mathematical integer: it is the host's answer while its magnitude is at
    most 2^53 (beyond, the host rounds it to a double, and it answers -0
    for "-0"). *)
Definition parseInt (s : string) : number :=
  let s1 := trim_start s in
  let '(sign, s2) :=
    match s1 with
    | String "-" r => (-1, r)
    | String "+" r => (1, r)
    | _ => (1, s1)
    end in
  match digits_value None s2 with
  | Some n => Num (sign * n)
  | None => NaN
  end.

(** Strings made of the white space [parseInt] skips, and strings that
    start with a decimal digit. *)
Fixpoint only_spaces (s : string) : bool :=
  match s with
  | String c s' => is_space c && only_spaces s'
  | EmptyString => true
  end.

Definition starts_with_digit (s : string) : bool :=
  match s with
  | String c _ => bool_decide (is_Some (digit_of c))
  | EmptyString => false
  end.

(** The timeout of the GET handler, server.ts lines 62-64:
    [req.query.timeout ? parseInt(req.query.timeout, 10) : 10000].  An absent
    parameter is [undefined] and an empty one is the empty string; both are
    falsy, every other string is truthy. *)
Definition get_timeout (query_timeout : option string) : number :=
  match query_timeout with
  | Some (String c s) => parseInt (String c s)
  | Some EmptyString => Num 10000
  | None => Num 10000
  end.

(** The response of the GET handler once the promise has settled, lines
    70-75. *)
Inductive Response :=
  | Ok200 (message : Message)
  | NoContent204.

Definition respond (v : option Message) : Response :=
  match v with
  | Some message => Ok200 message
  | None => NoContent204
  end.

(** ** The adapter (server.ts) *)

(** The submit operation: lines 29-43 of the POST handler, applied to the
    content the handler has read from the request body.  It builds the
    message from a UUID of the host and the clock, hands it to [addMessage]
    and answers the message's id. *)
Definition submit {host : Host} (queueName : string) (content : string)
    (st : State) : State * string :=
  let message :=
    mkMessage (randomUUID (uuid_calls st)) content (Some (now st)) in
  let st1 :=
    {| queues := queues st; timers := timers st;
       next_promise := next_promise st; next_timer := next_timer st;
       uuid_calls := S (uuid_calls st); now := now st; trace := trace st |} in
  (addMessage queueName message st1, id message).

(** The GET handler up to its [await], lines 59-67. *)
Definition handle_get {host : Host} (queueName : string)
    (query_timeout : option string) (st : State) : State * Receive :=
  getMessage queueName (get_timeout query_timeout) st.

(** The parsed body of a POST request, as the handler's comment types it
    ("{ content: string } or just a string"): absent ([undefined] or
    [null]), a string, or an object with or without a [content] string,
    together with the text [JSON.stringify] answers for the object. *)
Inductive Body :=
  | BodyUndefined
  | BodyString (s : string)
  | BodyObject (content_field : option string) (json : string).

(** The content the POST handler reads from the body, lines 25-27:
    [typeof req.body === 'string' ? req.body
       : req.body.content || JSON.stringify(req.body)].
    Reading [content] of an absent body throws ([None]); the empty string
    is falsy. *)
Definition post_content (body : Body) : option string :=
  match body with
  | BodyUndefined => None
  | BodyString s => Some s
  | BodyObject (Some c) json => Some (if decide (c = "") then json else c)
  | BodyObject None json => Some json
  end.

(** What the POST handler does to the request: it answers 200 with
    [{success: true, messageId}], or throws a TypeError. *)
Inductive PostResult :=
  | PostOk (messageId : string)
  | PostThrows.

(** The POST handler, lines 21-44. *)
Definition handle_post {host : Host} (queueName : string) (body : Body)
    (st : State) : State * PostResult :=
  match post_content body with
  | Some content =>
      let '(st1, messageId) := submit queueName content st in
      (st1, PostOk messageId)
  | None => (st, PostThrows)
  end.

(** ** Executions *)

(** What can happen to the process: the two HTTP requests, direct calls of
    the two public methods, the host running a timer, time passing. *)
Inductive Event :=
  | EvPost (queueName : string) (content : string)
  | EvAdd (queueName : string) (message : Message)
  | EvGet (queueName : string) (timeout : number)
  | EvFire (t : nat)
  | EvTick (d : nat).

(** One event, and a list of events from left to right. *)
Definition step {host : Host} (e : Event) (st : State) : State :=
  match e with
  | EvPost queueName content => (submit queueName content st).1
  | EvAdd queueName message => addMessage queueName message st
  | EvGet queueName timeout => (getMessage queueName timeout st).1
  | EvFire t => fireTimer t st
  | EvTick d => tick d st
  end.

Definition run {host : Host} (evs : list Event) (st : State) : State :=
  foldl (λ s e, step e s) st evs.

(** Submitting a list of messages; receiving once per timeout of a list. *)
Definition submits (queueName : string) (ms : list Message) (st : State)
    : State :=
  foldl (λ s m, addMessage queueName m s) st ms.

Fixpoint receives {host : Host} (queueName : string)
    (timeouts : list number) (st : State) : State * list Receive :=
  match timeouts with
  | [] => (st, [])
  | timeout :: rest =>
      let '(st1, r) := getMessage queueName timeout st in
      let '(st2, rs) := receives queueName rest st1 in
      (st2, r :: rs)
  end.

(** The host lets every timer that is still armed run: the handles are
    tried in the order they were given out, after the clock has passed the
    latest deadline. *)
Definition latest_due (st : State) : Z :=
  foldr (λ t acc, match timers st !! t with
                  | Some tm => Z.max (due tm) acc
                  | None => acc
                  end) (now st) (seq 0 (next_timer st)).

Definition expire_all {host : Host} (st : State) : State :=
  run (EvFire <$> seq 0 (next_timer st))
      (tick (Z.to_nat (latest_due st - now st)) st).

(** ** The vocabulary of the properties *)

(** The promise whose [resolve] a stored closure calls. *)
Definition resolver_promise (f : ResolveFn) : nat :=
  match f with ResolveClosure p => p end.

(** The queue [getQueue] answers: the registered one, or a new empty one. *)
Definition the_queue (queueName : string) (st : State) : Queue :=
  default empty_queue (queues st !! queueName).

(** A waiter is in a queue's list exactly while its timer is armed and its
    promise has seen no [resolve] call.  Promises and timer handles are given
    out together, so a waiter's two numbers agree. *)
Record wf (st : State) : Prop := {
  wf_xor : ∀ q Q, queues st !! q = Some Q →
    messages Q = [] ∨ waitingConsumers Q = [];
  wf_waiter : ∀ q Q c,
    queues st !! q = Some Q → c ∈ waitingConsumers Q →
    resolve c = ResolveClosure (timeoutId c) ∧
    reject c = RejectClosure (timeoutId c) ∧
    ∃ d, timers st !! timeoutId c = Some (mkTimer q (timeoutId c) d);
  wf_timer : ∀ t tm, timers st !! t = Some tm →
    cb_resolve tm = t ∧ (t < next_timer st)%nat ∧
    ∃ Q c, queues st !! cb_queue tm = Some Q ∧
           c ∈ waitingConsumers Q ∧ timeoutId c = t;
  wf_nodup : ∀ q Q, queues st !! q = Some Q →
    NoDup (timeoutId <$> waitingConsumers Q);
  wf_counters : next_promise st = next_timer st;
  wf_calls : ∀ p,
    (length (calls st p) ≤ 1)%nat ∧
    (calls st p = [] → (p < next_promise st)%nat →
       is_Some (timers st !! p)) ∧
    (calls st p ≠ [] → (p < next_promise st)%nat ∧ timers st !! p = None)
}.

(** The states of the executions that start with an empty registry. *)
Definition reachable {host : Host} (st : State) : Prop :=
  ∃ evs, st = run evs init.

(** How a call of [resolve] may be made: a message through the stored
    [resolve] closure, [null] from the timer callback. *)
Definition caller_ok (r : Resolution) : Prop :=
  match res_value r with
  | Some _ => res_by r = ByResolveField
  | None => res_by r = ByTimeoutCallback
  end.

(** In no queue are the backlog and the waiter list both non-empty. *)
Definition backlog_xor_waiters (st : State) : Prop :=
  ∀ q Q, queues st !! q = Some Q →
    messages Q = [] ∨ waitingConsumers Q = [].

(** The queue an operation works on: the one it names, and for a timer the
    one its callback captured. *)
Definition touched (e : Event) (st : State) : option string :=
  match e with
  | EvPost queueName _ => Some queueName
  | EvAdd queueName _ => Some queueName
  | EvGet queueName _ => Some queueName
  | EvFire t => cb_queue <$> timers st !! t
  | EvTick _ => None
  end.

(** The calls of [resolve] a step makes. *)
Definition new_calls {host : Host} (e : Event) (st : State)
    : list Resolution :=
  let handoff (queueName : string) (message : Message) :=
    match waitingConsumers (the_queue queueName st) with
    | consumer :: _ =>
        [mkResolution (resolver_promise (resolve consumer)) (Some message)
           ByResolveField (now st)]
    | [] => []
    end in
  match e with
  | EvPost queueName content =>
      handoff queueName
        (mkMessage (randomUUID (uuid_calls st)) content (Some (now st)))
  | EvAdd queueName message => handoff queueName message
  | EvFire t =>
      match timers st !! t with
      | Some tm =>
          if bool_decide (due tm ≤ now st)
          then [mkResolution (cb_resolve tm) None ByTimeoutCallback (now st)]
          else []
      | None => []
      end
  | EvGet _ _ | EvTick _ => []
  end.

(** The waiter registered on queue [q] with promise [p] and a timer due at
    [d0]: its handle stays taken, its timer, while armed, is the one armed at
    registration, and a [null] reaches its promise at [d0] or later. *)
Record tracked (q : string) (p : nat) (d0 : Z) (st : State) : Prop := {
  tr_wf : wf st;
  tr_lt : (p < next_timer st)%nat;
  tr_timer : ∀ tm, timers st !! p = Some tm → tm = mkTimer q p d0;
  tr_none : Forall (λ r, res_value r = None → d0 ≤ res_at r) (calls st p)
}.

(** The clock has reached the deadline of every armed timer. *)
Definition all_due (st : State) : Prop :=
  ∀ t tm, timers st !! t = Some tm → due tm ≤ now st.


(** Promise [p] belongs to a waiter that is in some queue's list. *)
Definition waiting (st : State) (p : nat) : Prop :=
  ∃ q c, c ∈ waitingConsumers (the_queue q st) ∧
         resolver_promise (resolve c) = p.

(** The message ids the POST requests of an execution are answered with. *)
Fixpoint post_ids {host : Host} (evs : list Event) (st : State)
    : list string :=
  match evs with
  | [] => []
  | e :: rest =>
      match e with
      | EvPost queueName content => [(submit queueName content st).2]
      | _ => []
      end ++ post_ids rest (step e st)
  end.

(** The queue a request names. *)
Definition requested (e : Event) : option string :=
  match e with
  | EvPost queueName _ | EvAdd queueName _ | EvGet queueName _ =>
      Some queueName
  | EvFire _ | EvTick _ => None
  end.

(** The queue names the requests of an execution use. *)
Definition named (evs : list Event) : gset string :=
  list_to_set (omap requested evs).

(** The message a submit hands to addMessage, with the queue's name. *)
Definition submission {host : Host} (e : Event) (st : State)
    : option (string * Message) :=
  match e with
  | EvPost queueName content =>
      Some (queueName,
            mkMessage (randomUUID (uuid_calls st)) content (Some (now st)))
  | EvAdd queueName message => Some (queueName, message)
  | _ => None
  end.

(** Where a message goes at queue [q]: a submit appends it to the backlog
    or hands it to a waiter; a receive takes it from the backlog. *)
Inductive Flow :=
  | Enqueued (m : Message)
  | Handed (m : Message)
  | Received (m : Message).

Definition flow {host : Host} (q : string) (e : Event) (st : State)
    : list Flow :=
  match e with
  | EvGet queueName timeout =>
      if decide (queueName = q) then
        match (getMessage queueName timeout st).2 with
        | Immediate m => [Received m]
        | Waiting _ => []
        end
      else []
  | _ =>
      match submission e st with
      | Some (queueName, m) =>
          if decide (queueName = q) then
            match waitingConsumers (the_queue q st) with
            | [] => [Enqueued m]
            | _ :: _ => [Handed m]
            end
          else []
      | None => []
      end
  end.

(** The flows of an execution at queue [q], in order. *)
Fixpoint ledger {host : Host} (q : string) (evs : list Event) (st : State)
    : list Flow :=
  match evs with
  | [] => []
  | e :: rest => flow q e st ++ ledger q rest (step e st)
  end.

Definition enqueued_of (l : list Flow) : list Message :=
  omap (λ f, match f with Enqueued m => Some m | _ => None end) l.

Definition handed_of (l : list Flow) : list Message :=
  omap (λ f, match f with Handed m => Some m | _ => None end) l.

Definition received_of (l : list Flow) : list Message :=
  omap (λ f, match f with Received m => Some m | _ => None end) l.

(** The waiter a receive registers on a state with counters [p] and [t]. *)
Definition new_consumer (p t : nat) : WaitingConsumer :=
  mkConsumer (ResolveClosure p) (RejectClosure p) t.

(** ** A concrete host, and the executions of the specification *)

(** Node.js's [setTimeout]: a delay that is not a number between 1 and
    2^31-1 is set to 1. *)
Definition node_timer_delay (timeout : number) : Z :=
  match timeout with
  | Num z => if bool_decide (1 ≤ z ≤ 2147483647) then z else 1
  | NaN => 1
  end.

(** A host whose n-th UUID is the decimal numeral of n. *)
Definition counter_uuid (n : nat) : string := pretty n.

Definition node_host : Host :=
  {| randomUUID := counter_uuid; timer_delay := node_timer_delay |}.

(** A message as a direct caller of addMessage may build it. *)
Definition order (n : nat) (text : string) : Message :=
  mkMessage (pretty n) text None.

Definition three_orders : list Message :=
  [order 1 "Order #1"; order 2 "Order #2"; order 3 "Order #3"].

(** One consumer waiting on "orders" for 5000 ms. *)
Definition one_waiting : State :=
  (getMessage (host:=node_host) "orders" (Num 5000) init).1.

(** Two consumers waiting on "orders", one on "invoices". *)
Definition three_waiting : State :=
  run (host:=node_host)
    [EvGet "orders" (Num 5000); EvGet "orders" (Num 6000);
     EvGet "invoices" (Num 100)] init.

(** A consumer waited 100 ms on "orders" and its timer has run. *)
Definition expired : State :=
  run (host:=node_host)
    [EvGet "orders" (Num 100); EvTick 100; EvFire 0%nat] init.




(** C9 as the specification states it: a timeout that is not a number
    reaches getMessage as the default. *)
Definition malformed_timeout_is_default : Prop :=
  ∀ s, parseInt s = NaN → get_timeout (Some s) = Num 10000.

(** ** Lists of waiting consumers *)

Section list_facts.
Context {A B : Type} (f : A → B).

Lemma delete_key_ne (l : list A) i x y :
  NoDup (f <$> l) → l !! i = Some x → y ∈ delete i l → f y ≠ f x.
Proof.
  intros Hnd Hi Hy Heq.
  rewrite <- (take_drop_middle l i x Hi) in Hnd.
  rewrite fmap_app, fmap_cons in Hnd.
  apply NoDup_app in Hnd as (_ & Hl & Hr).
  apply NoDup_cons in Hr as [Hr _].
  rewrite delete_take_drop in Hy.
  apply elem_of_app in Hy as [Hy|Hy].
  - apply (Hl (f x)); [|left].
    rewrite <- Heq. by apply list_elem_of_fmap_2.
  - apply Hr. rewrite <- Heq. by apply list_elem_of_fmap_2.
Qed.

Lemma elem_of_delete_other (l : list A) i x y :
  l !! i = Some x → y ∈ l → f y ≠ f x → y ∈ delete i l.
Proof.
  intros Hi Hy Hne.
  rewrite <- (take_drop_middle l i x Hi) in Hy.
  rewrite delete_take_drop.
  apply elem_of_app in Hy as [Hy|Hy]; [set_solver|].
  apply elem_of_cons in Hy as [->|Hy]; [done|set_solver].
Qed.

Lemma NoDup_fmap_delete (l : list A) i :
  NoDup (f <$> l) → NoDup (f <$> delete i l).
Proof.
  intros Hnd. rewrite list_fmap_delete.
  eapply sublist_NoDup; [|apply sublist_delete]. done.
Qed.
End list_facts.

Lemma findIndex_Some t l i :
  findIndex t l = Some i →
  ∃ c, l !! i = Some c ∧ timeoutId c = t.
Proof.
  unfold findIndex. intros H.
  destruct (list_find _ l) as [[j c]|] eqn:Hf; simplify_eq/=.
  apply list_find_Some in Hf as (? & ? & _). eauto.
Qed.

Lemma findIndex_None t l c :
  findIndex t l = None → c ∈ l → timeoutId c ≠ t.
Proof.
  unfold findIndex. intros H Hc.
  destruct (list_find _ l) as [[j c']|] eqn:Hf; simplify_eq/=.
  apply list_find_None in Hf. rewrite Forall_forall in Hf. by apply Hf.
Qed.

(** ** Properties of the program, for any host *)

Section Properties.
Context {host : Host}.

(** ** Unfolding equations *)

Lemma addMessage_unfold queueName message st :
  addMessage queueName message st =
  match waitingConsumers (the_queue queueName st) with
  | consumer :: rest =>
      {| queues :=
           <[queueName := mkQueue (messages (the_queue queueName st)) rest]>
             (queues st);
         timers := delete (timeoutId consumer) (timers st);
         next_promise := next_promise st; next_timer := next_timer st;
         uuid_calls := uuid_calls st; now := now st;
         trace := trace st ++
           [mkResolution (resolver_promise (resolve consumer)) (Some message)
              ByResolveField (now st)] |}
  | [] =>
      set_queues
        (<[queueName :=
             mkQueue (messages (the_queue queueName st) ++ [message]) []]>
           (queues st)) st
  end.
Proof.
  unfold addMessage, getQueue, the_queue.
  destruct (queues st !! queueName) as [queue|] eqn:Hq; simpl.
  - destruct (waitingConsumers queue) as [|consumer rest]; [done|].
    by destruct (resolve consumer).
  - by rewrite insert_insert_eq.
Qed.

Lemma getMessage_unfold queueName timeout st :
  getMessage queueName timeout st =
  match messages (the_queue queueName st) with
  | message :: rest =>
      (set_queues
         (<[queueName :=
              mkQueue rest (waitingConsumers (the_queue queueName st))]>
            (queues st)) st,
       Immediate message)
  | [] =>
      ({| queues :=
            <[queueName :=
                mkQueue [] (waitingConsumers (the_queue queueName st) ++
                  [mkConsumer (ResolveClosure (next_promise st))
                     (RejectClosure (next_promise st)) (next_timer st)])]>
              (queues st);
          timers :=
            <[next_timer st :=
                mkTimer queueName (next_promise st)
                  (now st + timer_delay timeout)]> (timers st);
          next_promise := S (next_promise st);
          next_timer := S (next_timer st);
          uuid_calls := uuid_calls st; now := now st; trace := trace st |},
       Waiting (next_promise st))
  end.
Proof.
  unfold getMessage, getQueue, the_queue.
  destruct (queues st !! queueName) as [queue|] eqn:Hq; simpl.
  - by destruct (messages queue).
  - by rewrite insert_insert_eq.
Qed.

Lemma run_app evs1 evs2 st : run (evs1 ++ evs2) st = run evs2 (run evs1 st).
Proof. apply foldl_app. Qed.

Lemma run_snoc evs e st : run (evs ++ [e]) st = step e (run evs st).
Proof. by rewrite run_app. Qed.

Lemma calls_snoc p r tr :
  filter (λ r, res_promise r = p) (tr ++ [r]) =
  filter (λ r, res_promise r = p) tr ++
    (if decide (res_promise r = p) then [r] else []).
Proof.
  by rewrite filter_app.
Qed.

(** ** The invariant of reachable states *)

Lemma wf_init : wf init.
Proof.
  split; simpl; try done.
  intros p. unfold calls. simpl. split_and!; [lia|lia|done].
Qed.

Lemma wf_armed_no_calls st t tm :
  wf st → timers st !! t = Some tm → calls st t = [].
Proof.
  intros Hwf Ht. destruct (wf_calls st Hwf t) as (_ & _ & H).
  destruct (calls st t) as [|r l]; [done|].
  destruct H as [_ H]; [done|]. congruence.
Qed.

(** The step both resolution paths share: the waiter at position [i] of
    queue [q] leaves the list, its timer leaves the host, and its promise's
    [resolve] is called. *)
Lemma wf_take_waiter st q Q i c v by_ at_ :
  wf st → queues st !! q = Some Q → waitingConsumers Q !! i = Some c →
  wf {| queues :=
          <[q := mkQueue (messages Q) (delete i (waitingConsumers Q))]>
            (queues st);
        timers := delete (timeoutId c) (timers st);
        next_promise := next_promise st; next_timer := next_timer st;
        uuid_calls := uuid_calls st; now := now st;
        trace := trace st ++ [mkResolution (timeoutId c) v by_ at_] |}.
Proof.
  intros Hwf Hq Hi.
  assert (Hc : c ∈ waitingConsumers Q) by (by eapply list_elem_of_lookup_2).
  pose proof (wf_nodup st Hwf q Q Hq) as Hnd.
  destruct (wf_waiter st Hwf q Q c Hq Hc) as (_ & _ & d & Htc).
  split; simpl.
  - intros q' Q' HQ'. destruct (decide (q = q')) as [->|Hne].
    + rewrite lookup_insert_eq in HQ'. simplify_eq/=.
      destruct (wf_xor st Hwf q' Q Hq) as [?|Hw]; [by left|].
      rewrite Hw in Hi. done.
    + rewrite lookup_insert_ne in HQ' by done. by eapply wf_xor.
  - intros q' Q' c' HQ' Hc'. destruct (decide (q = q')) as [->|Hne].
    + rewrite lookup_insert_eq in HQ'. simplify_eq/=.
      pose proof (delete_key_ne timeoutId _ _ _ _ Hnd Hi Hc') as Hk.
      apply list_elem_of_delete_inv in Hc'.
      destruct (wf_waiter st Hwf q' Q c' Hq Hc') as (? & ? & d' & ?).
      split_and!; [done..|]. exists d'. by rewrite lookup_delete_ne.
    + rewrite lookup_insert_ne in HQ' by done.
      destruct (wf_waiter st Hwf q' Q' c' HQ' Hc') as (? & ? & d' & Ht').
      split_and!; [done..|]. exists d'.
      rewrite lookup_delete_ne; [done|]. intros Heq. rewrite Heq in Htc.
      congruence.
  - intros t tm Ht.
    destruct (decide (timeoutId c = t)) as [<-|Hne];
      [by rewrite lookup_delete_eq in Ht|].
    rewrite lookup_delete_ne in Ht by done.
    destruct (wf_timer st Hwf t tm Ht) as (? & ? & Q0 & c0 & HQ0 & Hc0 & Hid).
    split_and!; [done..|].
    destruct (decide (q = cb_queue tm)) as [Heq|Hneq].
    + rewrite <- Heq in *. simplify_eq.
      eexists _, c0. rewrite lookup_insert_eq. split_and!; [done| |done].
      simpl. eapply (elem_of_delete_other timeoutId); [done..|congruence].
    + exists Q0, c0. by rewrite lookup_insert_ne.
  - intros q' Q' HQ'. destruct (decide (q = q')) as [->|Hne].
    + rewrite lookup_insert_eq in HQ'. simplify_eq/=.
      by apply NoDup_fmap_delete.
    + rewrite lookup_insert_ne in HQ' by done. by eapply wf_nodup.
  - by apply wf_counters.
  - intros p. unfold calls. simpl. rewrite calls_snoc. simpl.
    destruct (wf_calls st Hwf p) as (Hle & Hnone & Hsome).
    destruct (wf_timer st Hwf _ _ Htc) as (_ & Hlt & _).
    rewrite <- (wf_counters st Hwf) in Hlt.
    case_decide as Hp.
    + subst p. fold (calls st (timeoutId c)).
      rewrite (wf_armed_no_calls st _ _ Hwf Htc). simpl.
      split_and!; [lia|done|]. intros _. by rewrite lookup_delete_eq.
    + rewrite app_nil_r. fold (calls st p).
      rewrite lookup_delete_ne by done. done.
Qed.

(** Replacing the backlog of a queue that has no waiter. *)
Lemma wf_set_backlog st q msgs :
  wf st → waitingConsumers (the_queue q st) = [] →
  wf (set_queues (<[q := mkQueue msgs []]> (queues st)) st).
Proof.
  intros Hwf Hw. split; simpl.
  - intros q' Q' HQ'. destruct (decide (q = q')) as [->|Hne].
    + rewrite lookup_insert_eq in HQ'. simplify_eq/=. by right.
    + rewrite lookup_insert_ne in HQ' by done. by eapply wf_xor.
  - intros q' Q' c' HQ' Hc'. destruct (decide (q = q')) as [->|Hne].
    + rewrite lookup_insert_eq in HQ'. simplify_eq/=. set_solver.
    + rewrite lookup_insert_ne in HQ' by done. by eapply wf_waiter.
  - intros t tm Ht.
    destruct (wf_timer st Hwf t tm Ht) as (? & ? & Q0 & c0 & HQ0 & Hc0 & Hid).
    split_and!; [done..|].
    destruct (decide (q = cb_queue tm)) as [Heq|Hneq].
    + unfold the_queue in Hw. rewrite Heq, HQ0 in Hw. simpl in Hw.
      rewrite Hw in Hc0. set_solver.
    + exists Q0, c0. by rewrite lookup_insert_ne.
  - intros q' Q' HQ'. destruct (decide (q = q')) as [->|Hne].
    + rewrite lookup_insert_eq in HQ'. simplify_eq/=. constructor.
    + rewrite lookup_insert_ne in HQ' by done. by eapply wf_nodup.
  - by apply wf_counters.
  - apply (wf_calls st Hwf).
Qed.

Lemma the_queue_insert st st' q Q :
  queues st' = <[q := Q]> (queues st) → the_queue q st' = Q.
Proof. unfold the_queue. intros ->. by rewrite lookup_insert_eq. Qed.

Lemma the_queue_Some st q Q : queues st !! q = Some Q → the_queue q st = Q.
Proof. unfold the_queue. by intros ->. Qed.

Lemma the_queue_waiter st q c :
  c ∈ waitingConsumers (the_queue q st) →
  queues st !! q = Some (the_queue q st).
Proof.
  unfold the_queue. destruct (queues st !! q); simpl; [done|set_solver].
Qed.

Lemma wf_waiter_lt st q Q c :
  wf st → queues st !! q = Some Q → c ∈ waitingConsumers Q →
  (timeoutId c < next_timer st)%nat.
Proof.
  intros Hwf HQ Hc.
  destruct (wf_waiter st Hwf q Q c HQ Hc) as (_ & _ & d & Ht).
  by destruct (wf_timer st Hwf _ _ Ht) as (_ & ? & _).
Qed.

(** Registering a waiter on a queue whose backlog is empty. *)
Lemma wf_register st q d :
  wf st → messages (the_queue q st) = [] →
  wf {| queues :=
          <[q := mkQueue [] (waitingConsumers (the_queue q st) ++
                  [mkConsumer (ResolveClosure (next_promise st))
                     (RejectClosure (next_promise st)) (next_timer st)])]>
            (queues st);
        timers :=
          <[next_timer st := mkTimer q (next_promise st) d]> (timers st);
        next_promise := S (next_promise st);
        next_timer := S (next_timer st);
        uuid_calls := uuid_calls st; now := now st; trace := trace st |}.
Proof.
  intros Hwf Hm. pose proof (wf_counters st Hwf) as Hcnt.
  assert (Hfresh : timers st !! next_timer st = None).
  { destruct (timers st !! next_timer st) as [tm|] eqn:Ht; [|done].
    destruct (wf_timer st Hwf _ _ Ht) as (_ & ? & _). lia. }
  assert (Hold : ∀ c, c ∈ waitingConsumers (the_queue q st) →
                      (timeoutId c < next_timer st)%nat).
  { intros c Hc. eapply wf_waiter_lt; [done| |done].
    by apply the_queue_waiter in Hc. }
  split; simpl.
  - intros q' Q' HQ'. destruct (decide (q = q')) as [->|Hne].
    + rewrite lookup_insert_eq in HQ'. simplify_eq/=. by left.
    + rewrite lookup_insert_ne in HQ' by done. by eapply wf_xor.
  - intros q' Q' c' HQ' Hc'. destruct (decide (q = q')) as [->|Hne].
    + rewrite lookup_insert_eq in HQ'. simplify_eq/=.
      apply elem_of_app in Hc' as [Hc'|Hc'].
      * pose proof (Hold _ Hc') as Hlt.
        pose proof (the_queue_waiter _ _ _ Hc') as HQ.
        destruct (wf_waiter st Hwf _ _ _ HQ Hc') as (? & ? & d' & ?).
        split_and!; [done..|]. exists d'.
        rewrite lookup_insert_ne by lia. done.
      * apply list_elem_of_singleton in Hc' as ->. simpl.
        rewrite Hcnt. split_and!; [done..|]. exists d.
        by rewrite lookup_insert_eq.
    + rewrite lookup_insert_ne in HQ' by done.
      pose proof (wf_waiter_lt st _ _ _ Hwf HQ' Hc') as Hlt.
      destruct (wf_waiter st Hwf q' Q' c' HQ' Hc') as (? & ? & d' & Ht').
      split_and!; [done..|]. exists d'. rewrite lookup_insert_ne by lia. done.
  - intros t tm Ht. destruct (decide (next_timer st = t)) as [<-|Hne].
    + rewrite lookup_insert_eq in Ht. simplify_eq/=.
      split_and!; [done|lia|].
      eexists _, (mkConsumer (ResolveClosure (next_promise st))
                    (RejectClosure (next_promise st)) (next_timer st)).
      rewrite lookup_insert_eq. split_and!; [done| |done]. simpl. set_solver.
    + rewrite lookup_insert_ne in Ht by done.
      destruct (wf_timer st Hwf t tm Ht) as (? & ? & Q0 & c0 & HQ0 & Hc0 & Hid).
      split_and!; [done|lia|].
      destruct (decide (q = cb_queue tm)) as [Heq|Hneq].
      * eexists _, c0. rewrite <- Heq, lookup_insert_eq.
        split_and!; [done| |done]. simpl.
        rewrite <- Heq in HQ0. rewrite (the_queue_Some _ _ _ HQ0). set_solver.
      * exists Q0, c0. by rewrite lookup_insert_ne.
  - intros q' Q' HQ'. destruct (decide (q = q')) as [->|Hne].
    + rewrite lookup_insert_eq in HQ'. simplify_eq/=.
      rewrite fmap_app. apply NoDup_app. split_and!.
      * destruct (queues st !! q') as [Q|] eqn:HQ.
        -- rewrite (the_queue_Some _ _ _ HQ). by eapply wf_nodup.
        -- unfold the_queue. rewrite HQ. constructor.
      * intros x Hx Hx'. simpl in Hx'.
        apply list_elem_of_singleton in Hx' as ->.
        apply list_elem_of_fmap in Hx as (c & Heq & Hc).
        apply Hold in Hc. lia.
      * apply NoDup_singleton.
    + rewrite lookup_insert_ne in HQ' by done. by eapply wf_nodup.
  - by rewrite Hcnt.
  - intros p. unfold calls. simpl. fold (calls st p).
    destruct (wf_calls st Hwf p) as (Hle & Hnone & Hsome).
    split_and!; [done| |].
    + intros Hc Hp. destruct (decide (next_timer st = p)) as [<-|Hne].
      * by rewrite lookup_insert_eq.
      * rewrite lookup_insert_ne by done. apply Hnone; [done|lia].
    + intros Hc. destruct (Hsome Hc) as [Hlt Hn].
      split; [lia|]. rewrite lookup_insert_ne by lia. done.
Qed.

Lemma wf_addMessage st q m : wf st → wf (addMessage q m st).
Proof.
  intros Hwf. rewrite addMessage_unfold.
  destruct (waitingConsumers (the_queue q st)) as [|c rest] eqn:Hw.
  - by apply wf_set_backlog.
  - assert (Hc : c ∈ waitingConsumers (the_queue q st))
      by (rewrite Hw; left).
    pose proof (the_queue_waiter _ _ _ Hc) as HQ.
    destruct (wf_waiter st Hwf _ _ _ HQ Hc) as (Hres & _).
    rewrite Hres. simpl.
    pose proof (wf_take_waiter st q _ 0%nat c (Some m) ByResolveField (now st)
                  Hwf HQ) as H.
    rewrite Hw in H. by apply H.
Qed.

Lemma wf_getMessage st q timeout : wf st → wf (getMessage q timeout st).1.
Proof.
  intros Hwf. rewrite getMessage_unfold.
  destruct (messages (the_queue q st)) as [|m rest] eqn:Hm; simpl.
  - by apply wf_register.
  - assert (Hw : waitingConsumers (the_queue q st) = []).
    { unfold the_queue in *. destruct (queues st !! q) as [Q|] eqn:HQ; [|done].
      simpl in *. destruct (wf_xor st Hwf q Q HQ); [congruence|done]. }
    rewrite Hw. by apply wf_set_backlog.
Qed.

(** What the host's firing of an armed, due timer does in a reachable
    state: the waiter is found, so the callback is one instance of the
    shared step. *)
Lemma fireTimer_armed st t tm :
  wf st → timers st !! t = Some tm → due tm ≤ now st →
  ∃ Q i c, queues st !! cb_queue tm = Some Q ∧
    waitingConsumers Q !! i = Some c ∧ timeoutId c = t ∧
    fireTimer t st =
      {| queues :=
           <[cb_queue tm :=
               mkQueue (messages Q) (delete i (waitingConsumers Q))]>
             (queues st);
         timers := delete t (timers st);
         next_promise := next_promise st; next_timer := next_timer st;
         uuid_calls := uuid_calls st; now := now st;
         trace := trace st ++ [mkResolution t None ByTimeoutCallback (now st)] |}.
Proof.
  intros Hwf Ht Hdue.
  destruct (wf_timer st Hwf t tm Ht) as (Hres & _ & Q & c & HQ & Hc & Hid).
  unfold fireTimer. rewrite Ht, bool_decide_eq_true_2 by done.
  unfold onTimeout. simpl. rewrite HQ.
  destruct (findIndex t (waitingConsumers Q)) as [i|] eqn:Hf.
  - apply findIndex_Some in Hf as (c' & Hi & Hid').
    exists Q, i, c'. split_and!; [done..|].
    unfold promise_resolve. simpl. by rewrite Hres.
  - by destruct (findIndex_None _ _ _ Hf Hc).
Qed.

Lemma wf_fireTimer st t : wf st → wf (fireTimer t st).
Proof.
  intros Hwf. destruct (timers st !! t) as [tm|] eqn:Ht.
  - destruct (decide (due tm ≤ now st)) as [Hdue|Hdue].
    + destruct (fireTimer_armed st t tm Hwf Ht Hdue)
        as (Q & i & c & HQ & Hi & Hid & ->).
      rewrite <- Hid. by apply wf_take_waiter.
    + unfold fireTimer. by rewrite Ht, bool_decide_eq_false_2.
  - unfold fireTimer. by rewrite Ht.
Qed.

Lemma wf_tick st d : wf st → wf (tick d st).
Proof. intros [??????]. by split. Qed.

Lemma wf_submit st q content : wf st → wf (submit q content st).1.
Proof.
  intros Hwf. unfold submit. simpl. apply wf_addMessage.
  destruct Hwf. by split.
Qed.

Lemma wf_step st e : wf st → wf (step e st).
Proof.
  intros Hwf. destruct e; simpl.
  - by apply wf_submit.
  - by apply wf_addMessage.
  - by apply wf_getMessage.
  - by apply wf_fireTimer.
  - by apply wf_tick.
Qed.

Lemma wf_run_from evs st : wf st → wf (run evs st).
Proof.
  revert st. induction evs as [|e evs IH]; intros st Hwf; [done|].
  simpl. apply IH. by apply wf_step.
Qed.

Lemma wf_run evs : wf (run evs init).
Proof. apply wf_run_from, wf_init. Qed.

(** ** Reachable states and what one step does *)

Lemma reachable_wf st : reachable st → wf st.
Proof. intros [evs ->]. apply wf_run. Qed.

Lemma reachable_run evs st : reachable st → reachable (run evs st).
Proof. intros [evs0 ->]. exists (evs0 ++ evs). by rewrite run_app. Qed.

Lemma run_invariant (P : State → Prop) (φ : Event → Prop) evs st :
  (∀ s e, φ e → P s → P (step e s)) → Forall φ evs → P st → P (run evs st).
Proof.
  intros Hstep Hevs. revert st.
  induction Hevs as [|e evs He _ IH]; intros st HP; [done|].
  simpl. apply IH. by apply Hstep.
Qed.

Lemma addMessage_trace q m st :
  ∃ l, trace (addMessage q m st) = trace st ++ l ∧
       Forall (λ r, caller_ok r ∧ res_at r = now st ∧ is_Some (res_value r)) l.
Proof.
  rewrite addMessage_unfold.
  destruct (waitingConsumers (the_queue q st)) as [|c rest]; simpl.
  - exists []. by rewrite app_nil_r.
  - eexists [_]. split; [done|]. by repeat constructor.
Qed.

Lemma fireTimer_trace t st :
  fireTimer t st = st ∨
  ∃ tm, timers st !! t = Some tm ∧ due tm ≤ now st ∧
        trace (fireTimer t st) =
          trace st ++
            [mkResolution (cb_resolve tm) None ByTimeoutCallback (now st)].
Proof.
  unfold fireTimer. destruct (timers st !! t) as [tm|]; [|by left].
  case_bool_decide; [|by left]. right. exists tm. split_and!; [done..|].
  unfold onTimeout. simpl.
  destruct (queues st !! cb_queue tm) as [Q|]; [|done].
  by destruct (findIndex t (waitingConsumers Q)).
Qed.

Lemma getMessage_trace q timeout st :
  trace (getMessage q timeout st).1 = trace st.
Proof.
  rewrite getMessage_unfold. by destruct (messages (the_queue q st)).
Qed.

Lemma step_trace e st :
  ∃ l, trace (step e st) = trace st ++ l ∧
       Forall (λ r, caller_ok r ∧ res_at r = now st) l ∧
       (l ≠ [] → next_promise (step e st) = next_promise st).
Proof.
  destruct e as [q content|q m|q timeout|t|d]; simpl.
  - destruct (addMessage_trace q
                (mkMessage (randomUUID (uuid_calls st)) content (Some (now st)))
                {| queues := queues st; timers := timers st;
                   next_promise := next_promise st;
                   next_timer := next_timer st;
                   uuid_calls := S (uuid_calls st); now := now st;
                   trace := trace st |}) as (l & Hl & Hok).
    exists l. split_and!; [done| |].
    + eapply Forall_impl; [done|]. intros r (? & ? & _). by split.
    + intros _. rewrite addMessage_unfold. simpl.
      by destruct (waitingConsumers _).
  - destruct (addMessage_trace q m st) as (l & Hl & Hok).
    exists l. split_and!; [done| |].
    + eapply Forall_impl; [done|]. intros r (? & ? & _). by split.
    + intros _. rewrite addMessage_unfold.
      by destruct (waitingConsumers _).
  - exists []. rewrite getMessage_trace, app_nil_r. by split_and!.
  - destruct (fireTimer_trace t st) as [->|(tm & Ht & Hdue & Htr)].
    + exists []. rewrite app_nil_r. by split_and!.
    + eexists [_]. split_and!; [done|by repeat constructor|].
      intros _. unfold fireTimer. rewrite Ht, bool_decide_eq_true_2 by done.
      unfold onTimeout. simpl.
      destruct (queues st !! cb_queue tm) as [Q|]; [|done].
      by destruct (findIndex t (waitingConsumers Q)).
  - exists []. rewrite app_nil_r. by split_and!.
Qed.

Lemma step_calls_prefix e st p : calls st p `prefix_of` calls (step e st) p.
Proof.
  destruct (step_trace e st) as (l & Hl & _). unfold calls.
  rewrite Hl, filter_app. by apply prefix_app_r.
Qed.

Lemma run_calls_prefix evs st p : calls st p `prefix_of` calls (run evs st) p.
Proof.
  revert st. induction evs as [|e evs IH]; intros st; [done|].
  simpl. etrans; [apply step_calls_prefix|apply IH].
Qed.

Lemma step_counters e st :
  (next_promise st ≤ next_promise (step e st))%nat ∧
  (next_timer st ≤ next_timer (step e st))%nat ∧
  now st ≤ now (step e st).
Proof.
  destruct e as [q content|q m|q timeout|t|d]; simpl.
  - rewrite addMessage_unfold. simpl.
    destruct (waitingConsumers _); simpl; lia.
  - rewrite addMessage_unfold.
    destruct (waitingConsumers _); simpl; lia.
  - rewrite getMessage_unfold.
    destruct (messages _); simpl; lia.
  - unfold fireTimer. destruct (timers st !! t) as [tm|]; [|lia].
    case_bool_decide; [|lia]. unfold onTimeout. simpl.
    destruct (queues st !! cb_queue tm) as [Q|]; simpl; [|lia].
    destruct (findIndex t (waitingConsumers Q)); simpl; lia.
  - lia.
Qed.

Lemma run_counters evs st :
  (next_promise st ≤ next_promise (run evs st))%nat ∧
  (next_timer st ≤ next_timer (run evs st))%nat ∧
  now st ≤ now (run evs st).
Proof.
  revert st. induction evs as [|e evs IH]; intros st; simpl; [lia|].
  pose proof (step_counters e st). pose proof (IH (step e st)). lia.
Qed.

(** A step arms no timer under a handle already given out, and leaves an
    armed timer as it was armed. *)
Lemma fireTimer_timers t st :
  timers (fireTimer t st) = timers st ∨
  timers (fireTimer t st) = delete t (timers st).
Proof.
  unfold fireTimer. destruct (timers st !! t) as [tm|]; [|by left].
  case_bool_decide; [|by left]. right. unfold onTimeout. simpl.
  destruct (queues st !! cb_queue tm) as [Q|]; [|done].
  by destruct (findIndex t (waitingConsumers Q)).
Qed.

Lemma step_timers_old e st t tm :
  (t < next_timer st)%nat →
  timers (step e st) !! t = Some tm → timers st !! t = Some tm.
Proof.
  intros Hlt. destruct e as [q content|q m|q timeout|t'|d]; simpl.
  - rewrite addMessage_unfold. simpl.
    destruct (waitingConsumers _); simpl; [done|].
    by intros [_ ?]%lookup_delete_Some.
  - rewrite addMessage_unfold.
    destruct (waitingConsumers _); simpl; [done|].
    by intros [_ ?]%lookup_delete_Some.
  - rewrite getMessage_unfold.
    destruct (messages _); simpl; [|done].
    rewrite lookup_insert_ne by lia. done.
  - destruct (fireTimer_timers t' st) as [->| ->]; [done|].
    by intros [_ ?]%lookup_delete_Some.
  - done.
Qed.

(** ** Backlog and waiters (C4) *)

Lemma backlog_xor_waiters_insert st q Q :
  backlog_xor_waiters st →
  messages Q = [] ∨ waitingConsumers Q = [] →
  ∀ q' Q', <[q := Q]> (queues st) !! q' = Some Q' →
    messages Q' = [] ∨ waitingConsumers Q' = [].
Proof.
  intros Hinv HQ q' Q'. destruct (decide (q = q')) as [->|Hne].
  - rewrite lookup_insert_eq. by intros [= <-].
  - rewrite lookup_insert_ne by done. apply Hinv.
Qed.

Lemma the_queue_xor st q :
  backlog_xor_waiters st →
  messages (the_queue q st) = [] ∨ waitingConsumers (the_queue q st) = [].
Proof.
  intros Hinv. unfold the_queue.
  destruct (queues st !! q) as [Q|] eqn:HQ; simpl; [by eapply Hinv|by left].
Qed.

Lemma addMessage_xor q m st :
  backlog_xor_waiters st → backlog_xor_waiters (addMessage q m st).
Proof.
  intros Hinv. rewrite addMessage_unfold.
  destruct (waitingConsumers (the_queue q st)) as [|c rest] eqn:Hw; simpl.
  - unfold backlog_xor_waiters; simpl.
    apply backlog_xor_waiters_insert; [done|by right].
  - unfold backlog_xor_waiters; simpl.
    apply backlog_xor_waiters_insert; [done|]. simpl. left.
    destruct (the_queue_xor st q Hinv); [done|congruence].
Qed.

Lemma getMessage_xor q timeout st :
  backlog_xor_waiters st → backlog_xor_waiters (getMessage q timeout st).1.
Proof.
  intros Hinv. rewrite getMessage_unfold.
  destruct (messages (the_queue q st)) as [|m rest] eqn:Hm; simpl.
  - unfold backlog_xor_waiters; simpl.
    apply backlog_xor_waiters_insert; [done|by left].
  - unfold backlog_xor_waiters; simpl.
    apply backlog_xor_waiters_insert; [done|]. simpl. right.
    destruct (the_queue_xor st q Hinv); [congruence|done].
Qed.

Lemma fireTimer_xor t st :
  backlog_xor_waiters st → backlog_xor_waiters (fireTimer t st).
Proof.
  intros Hinv. unfold fireTimer.
  destruct (timers st !! t) as [tm|]; [|done].
  case_bool_decide; [|done]. unfold onTimeout. simpl.
  destruct (queues st !! cb_queue tm) as [Q|] eqn:HQ; [|done].
  destruct (findIndex t (waitingConsumers Q)) as [i|]; [|done].
  unfold backlog_xor_waiters; simpl.
  apply backlog_xor_waiters_insert; [done|]. simpl.
  destruct (Hinv _ _ HQ) as [?|Hw]; [by left|]. right. by rewrite Hw.
Qed.

Lemma step_xor e st :
  backlog_xor_waiters st → backlog_xor_waiters (step e st).
Proof.
  intros Hinv. destruct e as [q content|q m|q timeout|t|d]; simpl.
  - by apply addMessage_xor.
  - by apply addMessage_xor.
  - by apply getMessage_xor.
  - by apply fireTimer_xor.
  - done.
Qed.

Lemma run_xor evs st :
  backlog_xor_waiters st → backlog_xor_waiters (run evs st).
Proof.
  intros Hinv.
  apply (run_invariant backlog_xor_waiters (λ _, True));
    [|by apply Forall_true|done].
  intros s e _. apply step_xor.
Qed.

(** C4: after every completed operation (a submit, an immediate receive,
    the registration of a waiter, the expiry of a timer), and so after any
    sequence of them, no queue has both a non-empty backlog and a non-empty
    waiter list: every step keeps the property, which holds of the empty
    registry.  A submit changes the backlog only when the queue has no
    waiter, and a receive registers a waiter only when the backlog is
    empty. *)
Theorem backlog_and_waiters_never_both st evs q m timeout :
  backlog_xor_waiters st →
  backlog_xor_waiters (run evs st) ∧
  (messages (the_queue q (addMessage q m st)) ≠ messages (the_queue q st) →
     waitingConsumers (the_queue q st) = []) ∧
  (waitingConsumers (the_queue q (getMessage q timeout st).1)
     ≠ waitingConsumers (the_queue q st) →
     messages (the_queue q st) = []).
Proof.
  intros Hinv. split_and!.
  - by apply run_xor.
  - intros Hchg. destruct (waitingConsumers (the_queue q st)) eqn:Hw; [done|].
    destruct Hchg. rewrite addMessage_unfold, Hw.
    by rewrite (the_queue_insert st _ q (mkQueue (messages (the_queue q st)) l)).
  - intros Hchg. destruct (messages (the_queue q st)) eqn:Hm; [done|].
    destruct Hchg. rewrite getMessage_unfold, Hm. simpl.
    by rewrite (the_queue_insert st _ q
                  (mkQueue l (waitingConsumers (the_queue q st)))).
Qed.

Lemma backlog_xor_waiters_init : backlog_xor_waiters init.
Proof. intros q Q. simpl. by rewrite lookup_empty. Qed.

(** ** The stored [reject] closure (C10) *)

Lemma trace_callers evs st :
  Forall caller_ok (trace st) → Forall caller_ok (trace (run evs st)).
Proof.
  apply (run_invariant (λ s, Forall caller_ok (trace s)) (λ _, True));
    [|by apply Forall_true].
  intros s e _ Hs. destruct (step_trace e s) as (l & -> & Hl & _).
  apply Forall_app. split; [done|].
  eapply Forall_impl; [done|]. by intros r [? _].
Qed.

(** C10: the [reject] closure every WaitingConsumer stores is never invoked.
    In every execution each call of a promise's [resolve] that carries a
    message is made through the stored [resolve] closure (by addMessage),
    and each call that carries [null] is made by the timer callback itself;
    none is made through [reject]. *)
Theorem reject_is_never_invoked evs :
  Forall (λ r, res_by r ≠ ByRejectField ∧
               match res_value r with
               | Some _ => res_by r = ByResolveField
               | None => res_by r = ByTimeoutCallback
               end) (trace (run evs init)).
Proof.
  eapply Forall_impl; [apply (trace_callers evs init); constructor|].
  intros r Hr. split; [|done]. unfold caller_ok in Hr.
  destruct (res_value r); congruence.
Qed.

(** ** First in, first out (C2) *)

Lemma addMessage_no_waiter q m st :
  waitingConsumers (the_queue q st) = [] →
  the_queue q (addMessage q m st) =
    mkQueue (messages (the_queue q st) ++ [m]) [].
Proof.
  intros Hw. rewrite addMessage_unfold, Hw.
  by apply (the_queue_insert st).
Qed.

Lemma submits_backlog q ms st :
  waitingConsumers (the_queue q st) = [] →
  the_queue q (submits q ms st) = mkQueue (messages (the_queue q st) ++ ms) [].
Proof.
  revert st. induction ms as [|m ms IH]; intros st Hw; simpl.
  - rewrite app_nil_r. destruct (the_queue q st); simpl in *. by subst.
  - pose proof (addMessage_no_waiter q m st Hw) as Hq.
    rewrite IH; rewrite Hq; [|done]. simpl. by rewrite <- app_assoc.
Qed.

Lemma getMessage_head q timeout st m rest :
  messages (the_queue q st) = m :: rest →
  (getMessage q timeout st).2 = Immediate m ∧
  the_queue q (getMessage q timeout st).1 =
    mkQueue rest (waitingConsumers (the_queue q st)).
Proof.
  intros Hm. rewrite getMessage_unfold, Hm. simpl. split; [done|].
  by apply (the_queue_insert st).
Qed.

Lemma receives_backlog q timeouts st :
  (length timeouts ≤ length (messages (the_queue q st)))%nat →
  (receives q timeouts st).2 =
    Immediate <$> take (length timeouts) (messages (the_queue q st)) ∧
  the_queue q (receives q timeouts st).1 =
    mkQueue (drop (length timeouts) (messages (the_queue q st)))
            (waitingConsumers (the_queue q st)).
Proof.
  revert st. induction timeouts as [|timeout rest IH]; intros st Hlen; simpl.
  - split; [done|]. rewrite drop_0. by destruct (the_queue q st).
  - destruct (messages (the_queue q st)) as [|m ms] eqn:Hm; simpl in Hlen;
      [lia|].
    destruct (getMessage_head q timeout st m ms Hm) as [Hr Hq].
    destruct (getMessage q timeout st) as [st1 r] eqn:Hg. simpl in Hr, Hq.
    specialize (IH st1). rewrite Hq in IH. simpl in IH.
    destruct (receives q rest st1) as [st2 rs] eqn:Hrs. simpl in *.
    destruct IH as [-> ->]; [lia|]. by subst r.
Qed.

(** C2: on a queue without waiters, submitting the messages [ms] appends
    them to the tail of the backlog in order, and receives made afterwards,
    at most as many as there are messages, each return at once, handing out
    the backlog from its head in the order of submission. *)
Theorem receives_in_submission_order q ms timeouts st :
  waitingConsumers (the_queue q st) = [] →
  (length timeouts ≤ length (messages (the_queue q st) ++ ms))%nat →
  let backlog := messages (the_queue q st) ++ ms in
  let st1 := submits q ms st in
  the_queue q st1 = mkQueue backlog [] ∧
  (receives q timeouts st1).2 = Immediate <$> take (length timeouts) backlog ∧
  the_queue q (receives q timeouts st1).1 =
    mkQueue (drop (length timeouts) backlog) [].
Proof.
  intros Hw Hlen backlog st1.
  pose proof (submits_backlog q ms st Hw) as Hq. fold st1 backlog in Hq.
  split; [done|].
  destruct (receives_backlog q timeouts st1) as [Hr Hq'].
  { rewrite Hq. simpl. done. }
  rewrite Hq in Hr, Hq'. done.
Qed.

(** ** Handing a message to the oldest waiter (C3) *)

Lemma wf_waiter_pending st q c :
  wf st → c ∈ waitingConsumers (the_queue q st) →
  resolver_promise (resolve c) = timeoutId c ∧
  calls st (timeoutId c) = [] ∧
  ∃ d, timers st !! timeoutId c = Some (mkTimer q (timeoutId c) d).
Proof.
  intros Hwf Hc. pose proof (the_queue_waiter _ _ _ Hc) as HQ.
  destruct (wf_waiter st Hwf _ _ _ HQ Hc) as (Hres & _ & d & Ht).
  split_and!; [by rewrite Hres| |by exists d].
  by eapply wf_armed_no_calls.
Qed.

Lemma promise_state_pending st p : calls st p = [] → promise_state st p = None.
Proof. unfold promise_state. by intros ->. Qed.

(** C3: when the waiter list of the queue is not empty, addMessage removes
    its oldest waiter, cancels that waiter's timer and calls its [resolve]
    with the message, which settles the waiter's promise; the backlog is
    left as it was (empty), and the other waiters stay in the list in their
    order, each with its promise pending and its timer armed. *)
Theorem submit_hands_to_oldest_waiter st q m c rest :
  reachable st → waitingConsumers (the_queue q st) = c :: rest →
  let st' := addMessage q m st in
  let p := resolver_promise (resolve c) in
  queues st' !! q = Some (mkQueue (messages (the_queue q st)) rest) ∧
  messages (the_queue q st') = [] ∧
  timers st' = delete (timeoutId c) (timers st) ∧
  timers st' !! timeoutId c = None ∧
  trace st' = trace st ++ [mkResolution p (Some m) ByResolveField (now st)] ∧
  promise_state st p = None ∧
  promise_state st' p = Some (Some m) ∧
  Forall (λ c', promise_state st' (resolver_promise (resolve c')) = None ∧
                timers st' !! timeoutId c' = timers st !! timeoutId c' ∧
                is_Some (timers st' !! timeoutId c')) rest.
Proof.
  intros Hreach Hw st' p. pose proof (reachable_wf st Hreach) as Hwf.
  assert (Hwf' : wf st') by (by apply wf_addMessage).
  assert (Hc : c ∈ waitingConsumers (the_queue q st)) by (rewrite Hw; left).
  destruct (wf_waiter_pending st q c Hwf Hc) as (Hp & Hcalls & d & Ht).
  fold p in Hp.
  assert (Hst' : st' =
    {| queues := <[q := mkQueue (messages (the_queue q st)) rest]> (queues st);
       timers := delete (timeoutId c) (timers st);
       next_promise := next_promise st; next_timer := next_timer st;
       uuid_calls := uuid_calls st; now := now st;
       trace := trace st ++
         [mkResolution p (Some m) ByResolveField (now st)] |}).
  { unfold st'. by rewrite addMessage_unfold, Hw. }
  assert (Hq' : the_queue q st' = mkQueue (messages (the_queue q st)) rest).
  { apply (the_queue_insert st). by rewrite Hst'. }
  assert (Hm : messages (the_queue q st) = []).
  { pose proof (the_queue_waiter _ _ _ Hc) as HQ.
    destruct (wf_xor st Hwf _ _ HQ) as [?|Hnil]; [done|congruence]. }
  split_and!.
  - rewrite Hst'. simpl. by rewrite lookup_insert_eq.
  - by rewrite Hq'.
  - by rewrite Hst'.
  - rewrite Hst'. simpl. by rewrite lookup_delete_eq.
  - by rewrite Hst'.
  - apply promise_state_pending. by rewrite Hp.
  - unfold promise_state, calls. rewrite Hst'. simpl. rewrite calls_snoc.
    simpl. fold (calls st p). rewrite Hp, Hcalls.
    by rewrite decide_True.
  - apply Forall_forall. intros c' Hc'.
    assert (Hin : c' ∈ waitingConsumers (the_queue q st')).
    { rewrite Hq'. done. }
    destruct (wf_waiter_pending st' q c' Hwf' Hin) as (Hp' & Hcalls' & d' & Ht').
    split_and!.
    + apply promise_state_pending. by rewrite Hp'.
    + rewrite Ht'. rewrite Hst' in Ht'. simpl in Ht'.
      by apply lookup_delete_Some in Ht' as [_ ->].
    + by rewrite Ht'.
Qed.

(** ** Isolation of queue names (C7) *)

Lemma addMessage_frame a b m st :
  a ≠ b → queues (addMessage a m st) !! b = queues st !! b.
Proof.
  intros Hne. rewrite addMessage_unfold.
  destruct (waitingConsumers (the_queue a st)); simpl;
    by rewrite lookup_insert_ne.
Qed.

Lemma getMessage_frame a b timeout st :
  a ≠ b → queues (getMessage a timeout st).1 !! b = queues st !! b.
Proof.
  intros Hne. rewrite getMessage_unfold.
  destruct (messages (the_queue a st)); simpl; by rewrite lookup_insert_ne.
Qed.

Lemma fireTimer_frame t b st :
  cb_queue <$> timers st !! t ≠ Some b →
  queues (fireTimer t st) !! b = queues st !! b.
Proof.
  intros Hne. unfold fireTimer.
  destruct (timers st !! t) as [tm|]; [|done]. simpl in Hne.
  case_bool_decide; [|done]. unfold onTimeout. simpl.
  destruct (queues st !! cb_queue tm) as [Q|]; [|done].
  destruct (findIndex t (waitingConsumers Q)); [|done]. simpl.
  rewrite lookup_insert_ne; [done|congruence].
Qed.

Lemma step_frame e b st :
  touched e st ≠ Some b → queues (step e st) !! b = queues st !! b.
Proof.
  destruct e as [a content|a m|a timeout|t|d]; simpl; intros Hne.
  - rewrite addMessage_frame by congruence. done.
  - apply addMessage_frame. congruence.
  - apply getMessage_frame. congruence.
  - by apply fireTimer_frame.
  - done.
Qed.

(** C7: an operation on one queue leaves the registry entry of every other
    queue name [b] as it was, backlog and waiter list alike: a submit to [a]
    takes no waiter of [b] and a receive on [b] takes no message of [a].
    Every waiter of [b] still has its promise pending afterwards, so the
    submit delivered to none of them. *)
Theorem queues_are_isolated st e b :
  reachable st → touched e st ≠ Some b →
  queues (step e st) !! b = queues st !! b ∧
  the_queue b (step e st) = the_queue b st ∧
  Forall (λ c, promise_state (step e st) (resolver_promise (resolve c)) = None)
         (waitingConsumers (the_queue b st)).
Proof.
  intros Hreach Hne. pose proof (step_frame e b st Hne) as Hfr.
  assert (Hq : the_queue b (step e st) = the_queue b st)
    by (unfold the_queue; by rewrite Hfr).
  split_and!; [done..|].
  apply Forall_forall. intros c Hc. rewrite <- Hq in Hc.
  assert (Hwf : wf (step e st)) by (by apply wf_step, reachable_wf).
  destruct (wf_waiter_pending _ b c Hwf Hc) as (Hp & Hcalls & _).
  apply promise_state_pending. by rewrite Hp.
Qed.

(** ** Following one waiter through an execution *)

Lemma step_trace_eq e st : trace (step e st) = trace st ++ new_calls e st.
Proof.
  destruct e as [q content|q m|q timeout|t|d]; simpl.
  - rewrite addMessage_unfold. unfold the_queue. simpl.
    destruct (waitingConsumers _); simpl; [by rewrite app_nil_r|done].
  - rewrite addMessage_unfold.
    destruct (waitingConsumers _); simpl; [by rewrite app_nil_r|done].
  - by rewrite getMessage_trace, app_nil_r.
  - unfold fireTimer. destruct (timers st !! t) as [tm|];
      [|by rewrite app_nil_r].
    case_bool_decide; [|by rewrite app_nil_r]. unfold onTimeout. simpl.
    destruct (queues st !! cb_queue tm) as [Q|]; [|done].
    by destruct (findIndex t (waitingConsumers Q)).
  - by rewrite app_nil_r.
Qed.

Lemma step_calls_eq e st p :
  calls (step e st) p =
  calls st p ++ filter (λ r, res_promise r = p) (new_calls e st).
Proof. unfold calls. by rewrite step_trace_eq, filter_app. Qed.

Lemma tracked_step q p d0 e st : tracked q p d0 st → tracked q p d0 (step e st).
Proof.
  intros [Hwf Hlt Htm Hnone]. split.
  - by apply wf_step.
  - pose proof (step_counters e st). lia.
  - intros tm Ht. apply Htm. by eapply step_timers_old.
  - rewrite step_calls_eq. apply Forall_app. split; [done|].
    apply Forall_forall. intros r [Hp Hr]%list_elem_of_filter Hv.
    destruct e as [a content|a m|a timeout|t|d]; simpl in Hr;
      try by apply elem_of_nil in Hr.
    + destruct (waitingConsumers _); [by apply elem_of_nil in Hr|].
      apply list_elem_of_singleton in Hr. by subst r.
    + destruct (waitingConsumers _); [by apply elem_of_nil in Hr|].
      apply list_elem_of_singleton in Hr. by subst r.
    + destruct (timers st !! t) as [tm|] eqn:Ht; [|by apply elem_of_nil in Hr].
      case_bool_decide as Hdue; [|by apply elem_of_nil in Hr].
      apply list_elem_of_singleton in Hr. subst r. simpl in *.
      destruct (wf_timer st Hwf t tm Ht) as (Hres & _).
      assert (Htp : t = p) by congruence. rewrite Htp in Ht.
      apply Htm in Ht. by subst tm.
Qed.

Lemma tracked_run q p d0 evs st : tracked q p d0 st → tracked q p d0 (run evs st).
Proof.
  intros H.
  apply (run_invariant (tracked q p d0) (λ _, True)); [|by apply Forall_true|done].
  intros s e _. apply tracked_step.
Qed.

Lemma wf_fresh_no_calls st p :
  wf st → (next_promise st ≤ p)%nat → calls st p = [].
Proof.
  intros Hwf Hle. destruct (wf_calls st Hwf p) as (_ & _ & H).
  destruct (calls st p) as [|r l]; [done|].
  destruct H as [? _]; [done|lia].
Qed.

(** A receive that has to wait starts a tracked waiter. *)
Lemma getMessage_waiting st q timeout st1 p :
  wf st → getMessage q timeout st = (st1, Waiting p) →
  p = next_promise st ∧ messages (the_queue q st) = [] ∧
  calls st1 p = [] ∧
  tracked q p (now st + timer_delay timeout) st1.
Proof.
  intros Hwf Hg.
  assert (Hwf1 : wf st1).
  { pose proof (wf_getMessage st q timeout Hwf) as H. by rewrite Hg in H. }
  rewrite getMessage_unfold in Hg.
  destruct (messages (the_queue q st)) as [|m rest]; [|done].
  injection Hg as <- <-.
  pose proof (wf_counters st Hwf) as Hcnt.
  assert (Hcalls : calls st (next_promise st) = [])
    by (by apply wf_fresh_no_calls).
  split_and!; [done..|]. split; simpl.
  - done.
  - lia.
  - rewrite Hcnt, lookup_insert_eq. by intros tm [= <-].
  - unfold calls in *. simpl. rewrite Hcalls. constructor.
Qed.

Lemma tracked_pending q p d0 st :
  tracked q p d0 st → calls st p = [] →
  timers st !! p = Some (mkTimer q p d0) ∧
  ∃ c, c ∈ waitingConsumers (the_queue q st) ∧
       resolver_promise (resolve c) = p ∧ timeoutId c = p.
Proof.
  intros [Hwf Hlt Htm _] Hcalls.
  destruct (wf_calls st Hwf p) as (_ & Harmed & _).
  destruct Harmed as [tm Ht]; [done|by rewrite (wf_counters st Hwf)|].
  pose proof (Htm tm Ht) as ->. split; [done|].
  destruct (wf_timer st Hwf p _ Ht) as (_ & _ & Q & c & HQ & Hc & Hid).
  simpl in HQ. exists c. rewrite (the_queue_Some _ _ _ HQ).
  destruct (wf_waiter st Hwf _ _ _ HQ Hc) as (Hres & _).
  split_and!; [done| |done]. by rewrite Hres.
Qed.

(** Once [resolve] has been called, the waiter is in no list and its timer
    is not armed. *)
Lemma wf_resolved_gone st p :
  wf st → calls st p ≠ [] →
  timers st !! p = None ∧
  ∀ q c, c ∈ waitingConsumers (the_queue q st) →
         resolver_promise (resolve c) ≠ p.
Proof.
  intros Hwf Hcalls.
  destruct (wf_calls st Hwf p) as (_ & _ & Hgone).
  destruct (Hgone Hcalls) as [_ Ht]. split; [done|].
  intros q c Hc Hp.
  destruct (wf_waiter_pending st q c Hwf Hc) as (Hid & _ & d & Ht').
  congruence.
Qed.

(** ** The host runs every armed timer *)

Lemma fireTimer_due t st :
  all_due st →
  timers (fireTimer t st) = delete t (timers st) ∧
  now (fireTimer t st) = now st.
Proof.
  intros Hdue. unfold fireTimer.
  destruct (timers st !! t) as [tm|] eqn:Ht.
  - rewrite bool_decide_eq_true_2 by (by eapply Hdue).
    unfold onTimeout. simpl.
    destruct (queues st !! cb_queue tm) as [Q|]; [|done].
    by destruct (findIndex t (waitingConsumers Q)).
  - by rewrite delete_id.
Qed.

Lemma fire_list_timers l st t tm :
  all_due st →
  timers (run (EvFire <$> l) st) !! t = Some tm →
  timers st !! t = Some tm ∧ t ∉ l.
Proof.
  revert st. induction l as [|t0 l IH]; intros st Hdue Ht; simpl in *.
  - split; [done|]. apply not_elem_of_nil.
  - destruct (fireTimer_due t0 st Hdue) as [Htm Hnow].
    apply IH in Ht as [Ht Hl].
    + rewrite Htm in Ht. apply lookup_delete_Some in Ht as [Hne Ht].
      split; [done|]. by intros [->|?]%elem_of_cons.
    + intros t' tm'. rewrite Htm, Hnow.
      intros [_ ?]%lookup_delete_Some. by eapply Hdue.
Qed.

Lemma latest_due_spec st :
  now st ≤ latest_due st ∧
  ∀ t tm, (t < next_timer st)%nat → timers st !! t = Some tm →
          due tm ≤ latest_due st.
Proof.
  unfold latest_due.
  assert (H : ∀ l,
    now st ≤ foldr (λ t acc, match timers st !! t with
                             | Some tm => Z.max (due tm) acc
                             | None => acc
                             end) (now st) l ∧
    ∀ t tm, t ∈ l → timers st !! t = Some tm →
      due tm ≤ foldr (λ t acc, match timers st !! t with
                               | Some tm => Z.max (due tm) acc
                               | None => acc
                               end) (now st) l).
  { induction l as [|t0 l [IH1 IH2]]; simpl.
    - split; [lia|]. intros t tm Ht. by apply elem_of_nil in Ht.
    - split.
      + destruct (timers st !! t0); lia.
      + intros t tm [->|Ht]%elem_of_cons Htm.
        * rewrite Htm. lia.
        * specialize (IH2 t tm Ht Htm). destruct (timers st !! t0); lia. }
  destruct (H (seq 0 (next_timer st))) as [H1 H2]. split; [done|].
  intros t tm Hlt. apply H2. apply elem_of_seq. lia.
Qed.

Lemma expire_all_run st :
  expire_all st =
  run (EvTick (Z.to_nat (latest_due st - now st))
         :: (EvFire <$> seq 0 (next_timer st))) st.
Proof. done. Qed.

Lemma expire_all_timers st t :
  wf st → timers (expire_all st) !! t = None.
Proof.
  intros Hwf.
  destruct (timers (expire_all st) !! t) as [tm|] eqn:Ht; [|done].
  unfold expire_all in Ht. apply fire_list_timers in Ht as [Ht Hl].
  - simpl in Ht. destruct (wf_timer st Hwf t tm Ht) as (_ & Hlt & _).
    destruct Hl. apply elem_of_seq. lia.
  - intros t' tm' Ht'. simpl in *.
    destruct (wf_timer st Hwf t' tm' Ht') as (_ & Hlt & _).
    destruct (latest_due_spec st) as [Hnow Hd].
    specialize (Hd t' tm' Hlt Ht'). lia.
Qed.

(** ** Exactly one resolution per waiter (C1) *)

Lemma reachable_getMessage st q timeout :
  reachable st → reachable (getMessage q timeout st).1.
Proof. intros H. by apply (reachable_run [EvGet q timeout]). Qed.

Lemma reachable_callers st : reachable st → Forall caller_ok (trace st).
Proof. intros [evs ->]. apply trace_callers. constructor. Qed.

Lemma calls_Forall (P : Resolution → Prop) st p :
  Forall P (trace st) → Forall P (calls st p).
Proof.
  rewrite !Forall_forall. intros H r [_ Hr]%list_elem_of_filter. by apply H.
Qed.

Lemma wf_exactly_one st p :
  wf st → (p < next_promise st)%nat → timers st !! p = None →
  length (calls st p) = 1%nat.
Proof.
  intros Hwf Hlt Ht. destruct (wf_calls st Hwf p) as (Hle & Harmed & _).
  destruct (calls st p) as [|r [|r' l]]; simpl in *; [|done|lia].
  destruct Harmed as [tm Htm]; [done..|]. congruence.
Qed.

(** C1: a receive on an empty backlog creates a waiter whose promise sees,
    whatever happens afterwards and in whatever order submits and timers
    run, at most one call of [resolve]; that call is either a message handed
    over by addMessage or the [null] of its own timer.  While no call has
    been made the waiter is still in its queue's list with its timer armed;
    after the call it is in no list and no armed timer resolves it; and once
    the host has run the timers that are armed, exactly one call has been
    made. *)
Theorem waiter_resolved_exactly_once st q timeout st1 p evs :
  reachable st → getMessage q timeout st = (st1, Waiting p) →
  let st2 := run evs st1 in
  calls st1 p = [] ∧
  (length (calls st2 p) ≤ 1)%nat ∧
  Forall (λ r, (∃ m, res_value r = Some m ∧ res_by r = ByResolveField) ∨
               (res_value r = None ∧ res_by r = ByTimeoutCallback))
         (calls st2 p) ∧
  (calls st2 p = [] →
     ∃ c tm, c ∈ waitingConsumers (the_queue q st2) ∧
             resolver_promise (resolve c) = p ∧
             timers st2 !! timeoutId c = Some tm ∧ cb_resolve tm = p) ∧
  (calls st2 p ≠ [] →
     (∀ q' c, c ∈ waitingConsumers (the_queue q' st2) →
              resolver_promise (resolve c) ≠ p) ∧
     (∀ t tm, timers st2 !! t = Some tm → cb_resolve tm ≠ p)) ∧
  ∃ r, calls (expire_all st2) p = [r] ∧
       ((∃ m, res_value r = Some m ∧ res_by r = ByResolveField) ∨
        (res_value r = None ∧ res_by r = ByTimeoutCallback)).
Proof.
  intros Hreach Hg st2. pose proof (reachable_wf st Hreach) as Hwf.
  destruct (getMessage_waiting st q timeout st1 p Hwf Hg)
    as (Hp & _ & Hcalls1 & Htr1).
  pose proof (tracked_run q p _ evs st1 Htr1) as Htr2. fold st2 in Htr2.
  pose proof (tr_wf _ _ _ _ Htr2) as Hwf2.
  assert (Hreach2 : reachable st2).
  { apply reachable_run. pose proof (reachable_getMessage st q timeout Hreach) as H.
    by rewrite Hg in H. }
  assert (Hkind : ∀ s, reachable s →
    Forall (λ r, (∃ m, res_value r = Some m ∧ res_by r = ByResolveField) ∨
                 (res_value r = None ∧ res_by r = ByTimeoutCallback))
           (calls s p)).
  { intros s Hs.
    eapply Forall_impl; [apply calls_Forall, reachable_callers, Hs|].
    intros r Hr. unfold caller_ok in Hr.
    destruct (res_value r) as [m|]; [left; eauto|by right]. }
  split_and!.
  - done.
  - apply (wf_calls st2 Hwf2 p).
  - by apply Hkind.
  - intros Hnone.
    destruct (tracked_pending q p _ st2 Htr2 Hnone) as (Ht & c & Hc & Hres & Hid).
    exists c, (mkTimer q p (now st + timer_delay timeout)).
    rewrite Hid. by split_and!.
  - intros Hsome. destruct (wf_resolved_gone st2 p Hwf2 Hsome) as [Ht Hgone].
    split; [done|]. intros t tm Htm Hres.
    destruct (wf_timer st2 Hwf2 t tm Htm) as (Hres' & _). congruence.
  - pose proof (tracked_run q p _
      (EvTick (Z.to_nat (latest_due st2 - now st2))
         :: (EvFire <$> seq 0 (next_timer st2))) st2 Htr2) as Htr3.
    rewrite <- expire_all_run in Htr3.
    pose proof (tr_wf _ _ _ _ Htr3) as Hwf3.
    assert (Hone : length (calls (expire_all st2) p) = 1%nat).
    { apply wf_exactly_one; [done| |by apply expire_all_timers].
      rewrite (wf_counters _ Hwf3). by apply (tr_lt _ _ _ _ Htr3). }
    assert (Hreach3 : reachable (expire_all st2)).
    { rewrite expire_all_run. by apply reachable_run. }
    pose proof (Hkind _ Hreach3) as Hk.
    destruct (calls (expire_all st2) p) as [|r [|r' l]]; simpl in Hone;
      try lia.
    exists r. split; [done|]. exact (Forall_inv Hk).
Qed.

(** ** Expiry of a receive (C6) *)





(** A promise that has been resolved sees no further call. *)
Lemma resolved_stable st p evs :
  wf st → calls st p ≠ [] → calls (run evs st) p = calls st p.
Proof.
  intros Hwf Hne.
  destruct (run_calls_prefix evs st p) as [k Hk].
  pose proof (wf_calls _ (wf_run_from evs st Hwf) p) as (Hle & _).
  rewrite Hk in Hle |- *. rewrite length_app in Hle.
  destruct (calls st p) as [|r l]; [done|]. simpl in Hle.
  destruct k; [by rewrite app_nil_r|simpl in Hle; lia].
Qed.



(** ** Resolution and removal from the waiter list (C5) *)

Lemma pending_is_waiting st p :
  wf st → (p < next_promise st)%nat → calls st p = [] → waiting st p.
Proof.
  intros Hwf Hlt Hcalls.
  destruct (wf_calls st Hwf p) as (_ & Harmed & _).
  destruct Harmed as [tm Ht]; [done..|].
  destruct (wf_timer st Hwf p tm Ht) as (_ & _ & Q & c & HQ & Hc & Hid).
  destruct (wf_waiter st Hwf _ _ _ HQ Hc) as (Hres & _).
  exists (cb_queue tm), c. rewrite (the_queue_Some _ _ _ HQ).
  split; [done|]. by rewrite Hres.
Qed.

Lemma resolved_not_waiting st p : wf st → calls st p ≠ [] → ¬ waiting st p.
Proof.
  intros Hwf Hne (q & c & Hc & Hp).
  destruct (wf_resolved_gone st p Hwf Hne) as [_ H]. by eapply H.
Qed.

Lemma new_calls_counter e st :
  new_calls e st ≠ [] → next_promise (step e st) = next_promise st.
Proof.
  destruct (step_trace e st) as (l & Hl & _ & Hcnt).
  rewrite step_trace_eq in Hl. apply app_inv_head in Hl as <-. done.
Qed.

(** The callback guards only the [splice]: were it to run with its waiter
    gone from the list, it would still call [resolve(null)].  It never does,
    by [fireTimer_armed]: addMessage cancels the timer of the waiter it
    removes. *)
Lemma onTimeout_waiter_gone t tm st Q :
  queues st !! cb_queue tm = Some Q →
  findIndex t (waitingConsumers Q) = None →
  onTimeout t tm st =
    promise_resolve (cb_resolve tm) None ByTimeoutCallback st.
Proof. intros HQ Hf. unfold onTimeout. by rewrite HQ, Hf. Qed.

(** C5: a call of a waiter's [resolve], with a message or with [null], is
    made only by a step that takes the waiter out of its queue's list, and
    it is the first and only call on it.  Once the waiter is gone from the
    lists no armed timer resolves it, no later step calls its [resolve] or
    puts it back, and the run of a timer whose waiter is in no list changes
    nothing at all in the state. *)
Theorem resolution_goes_with_removal st e p :
  reachable st →
  let st' := step e st in
  (calls st' p ≠ calls st p →
     waiting st p ∧ ¬ waiting st' p ∧
     calls st p = [] ∧ length (calls st' p) = 1%nat) ∧
  ((p < next_promise st)%nat → ¬ waiting st p →
     (∀ t tm, timers st !! t = Some tm → cb_resolve tm ≠ p) ∧
     calls st' p = calls st p ∧ ¬ waiting st' p) ∧
  (∀ t, (∀ q c, c ∈ waitingConsumers (the_queue q st) → timeoutId c ≠ t) →
        fireTimer t st = st).
Proof.
  intros Hreach st'. pose proof (reachable_wf st Hreach) as Hwf.
  assert (Hwf' : wf st') by (by apply wf_step).
  split_and!.
  - intros Hchg. unfold st' in Hchg. rewrite step_calls_eq in Hchg.
    destruct (filter (λ r, res_promise r = p) (new_calls e st))
      as [|r l] eqn:Hnew; [by rewrite app_nil_r in Hchg|].
    assert (Hne : new_calls e st ≠ []) by (intros H0; by rewrite H0 in Hnew).
    pose proof (new_calls_counter e st Hne) as Hcnt.
    destruct (wf_calls st' Hwf' p) as (Hle & _ & Hsome).
    unfold st' in Hle, Hsome. rewrite step_calls_eq, Hnew in Hle, Hsome.
    rewrite length_app in Hle. simpl in Hle.
    destruct (calls st p) as [|r0 l0] eqn:Hc; [|simpl in Hle; lia].
    destruct l; [|simpl in Hle; lia].
    destruct Hsome as [Hlt _]; [done|]. rewrite Hcnt in Hlt.
    split_and!; [by apply pending_is_waiting| |done|].
    + apply resolved_not_waiting; [done|].
      unfold st'. by rewrite step_calls_eq, Hnew, Hc.
    + unfold st'. by rewrite step_calls_eq, Hnew, Hc.
  - intros Hlt Hgone.
    assert (Hne : calls st p ≠ []).
    { intros Hc. by apply Hgone, pending_is_waiting. }
    pose proof (resolved_stable st p [e] Hwf Hne) as Hst. simpl in Hst.
    split_and!.
    + intros t tm Ht Hres.
      destruct (wf_timer st Hwf t tm Ht) as (Hres' & _).
      destruct (wf_resolved_gone st p Hwf Hne) as [Hnone _]. congruence.
    + done.
    + apply resolved_not_waiting; [done|]. unfold st'. by rewrite Hst.
  - intros t Hgone. unfold fireTimer.
    destruct (timers st !! t) as [tm|] eqn:Ht; [|done].
    destruct (wf_timer st Hwf t tm Ht) as (_ & _ & Q & c & HQ & Hc & Hid).
    destruct (Hgone (cb_queue tm) c); [|done].
    by rewrite (the_queue_Some _ _ _ HQ).
Qed.

(** ** Submit (C8) *)

Lemma addMessage_uuid q m st : uuid_calls (addMessage q m st) = uuid_calls st.
Proof. rewrite addMessage_unfold. by destruct (waitingConsumers _). Qed.

Lemma step_uuid e st : (uuid_calls st ≤ uuid_calls (step e st))%nat.
Proof.
  destruct e as [q content|q m|q timeout|t|d]; simpl.
  - rewrite addMessage_uuid. simpl. lia.
  - by rewrite addMessage_uuid.
  - rewrite getMessage_unfold. by destruct (messages _).
  - unfold fireTimer. destruct (timers st !! t) as [tm|]; [|done].
    case_bool_decide; [|done]. unfold onTimeout. simpl.
    destruct (queues st !! cb_queue tm) as [Q|]; [|done].
    by destruct (findIndex t (waitingConsumers Q)).
  - done.
Qed.

Lemma post_ids_range evs st x :
  x ∈ post_ids evs st → ∃ n, (uuid_calls st ≤ n)%nat ∧ x = randomUUID n.
Proof.
  revert st. induction evs as [|e evs IH]; intros st; simpl.
  - by intros ?%elem_of_nil.
  - intros [Hx|Hx]%elem_of_app.
    + destruct e; try by apply elem_of_nil in Hx.
      apply list_elem_of_singleton in Hx. simpl in Hx. eauto.
    + apply IH in Hx as (n & Hn & ->). exists n. split; [|done].
      pose proof (step_uuid e st). lia.
Qed.

Lemma post_ids_NoDup evs st :
  (∀ n n', randomUUID n = randomUUID n' → n = n') → NoDup (post_ids evs st).
Proof.
  intros Hinj. revert st. induction evs as [|e evs IH]; intros st; simpl.
  - constructor.
  - destruct e as [q content|q m|q timeout|t|d]; simpl; try apply IH.
    constructor; [|apply IH].
    intros (n & Hn & Heq)%post_ids_range. apply Hinj in Heq.
    rewrite addMessage_uuid in Hn. simpl in Hn. lia.
Qed.

(** C8: submit builds the message from a UUID of the host and the clock,
    hands it to addMessage, which gives it to the oldest waiter or appends
    it to the backlog, and answers the message's id.  It is defined on every
    state and input, creates no promise and arms no timer.  When the host's
    UUIDs do not repeat, the id differs from every id generated before and
    the ids answered during an execution are pairwise distinct. *)
Theorem submit_returns_fresh_id st queueName content evs :
  (∀ n n', randomUUID n = randomUUID n' → n = n') →
  let message :=
    mkMessage (randomUUID (uuid_calls st)) content (Some (now st)) in
  let st' := (submit queueName content st).1 in
  (submit queueName content st).2 = id message ∧
  (∀ n, (n < uuid_calls st)%nat → randomUUID n ≠ id message) ∧
  uuid_calls st' = S (uuid_calls st) ∧
  match waitingConsumers (the_queue queueName st) with
  | consumer :: _ =>
      trace st' = trace st ++
        [mkResolution (resolver_promise (resolve consumer)) (Some message)
           ByResolveField (now st)]
  | [] =>
      trace st' = trace st ∧
      the_queue queueName st' =
        mkQueue (messages (the_queue queueName st) ++ [message]) []
  end ∧
  next_promise st' = next_promise st ∧ next_timer st' = next_timer st ∧
  now st' = now st ∧ timers st' ⊆ timers st ∧
  NoDup (post_ids evs st).
Proof.
  intros Hinj message st'.
  assert (Hst' : st' = step (EvPost queueName content) st) by done.
  split_and!.
  - done.
  - intros n Hn Heq. apply Hinj in Heq. lia.
  - unfold st', submit. simpl. by rewrite addMessage_uuid.
  - pose proof (step_trace_eq (EvPost queueName content) st) as Htr.
    rewrite <- Hst' in Htr. simpl in Htr. fold message in Htr.
    destruct (waitingConsumers (the_queue queueName st)) as [|c rest] eqn:Hw;
      [|done].
    rewrite app_nil_r in Htr. split; [done|].
    unfold st', submit. simpl.
    rewrite addMessage_no_waiter; [done|]. done.
  - unfold st', submit. simpl. rewrite addMessage_unfold.
    by destruct (waitingConsumers _).
  - unfold st', submit. simpl. rewrite addMessage_unfold.
    by destruct (waitingConsumers _).
  - unfold st', submit. simpl. rewrite addMessage_unfold.
    by destruct (waitingConsumers _).
  - unfold st', submit. simpl. rewrite addMessage_unfold.
    destruct (waitingConsumers _); simpl; [done|]. apply delete_subseteq.
  - by apply post_ids_NoDup.
Qed.

(** ** The timeout of the GET request (C9) *)

Lemma parseInt_no_digit c s :
  is_space c = false → c ≠ "-"%char → c ≠ "+"%char → digit_of c = None →
  parseInt (String c s) = NaN.
Proof.
  intros Hsp Hm Hp Hd. unfold parseInt. simpl. rewrite Hsp.
  assert (Hsign :
    match String c s with
    | String "-" r => (-1, r)
    | String "+" r => (1, r)
    | _ => (1, String c s)
    end = (1, String c s)).
  { destruct c as [[] [] [] [] [] [] [] []]; try done. }
  rewrite Hsign. simpl. by rewrite Hd.
Qed.

(** C9, as the code has it: without a [timeout] parameter, or with an empty
    one, the GET handler passes the default 10000 to getMessage; any other
    value is passed through [parseInt] and handed to getMessage as it comes
    out, which is [NaN] for a string that does not start with a number. *)
Theorem get_timeout_default_and_parse queueName st :
  get_timeout None = Num 10000 ∧
  get_timeout (Some "") = Num 10000 ∧
  (∀ c s, get_timeout (Some (String c s)) = parseInt (String c s)) ∧
  (∀ c s, is_space c = false → c ≠ "-"%char → c ≠ "+"%char →
          digit_of c = None → get_timeout (Some (String c s)) = NaN) ∧
  (∀ query, handle_get queueName query st =
            getMessage queueName (get_timeout query) st).
Proof.
  split_and!; try done. intros c s ????. by apply parseInt_no_digit.
Qed.


(** ** The registry only grows *)

#[local] Set Warnings "-clear-no-such-hyp".

Lemma addMessage_dom q m st :
  dom (queues (addMessage q m st)) = dom (queues st) ∪ {[q]}.
Proof.
  rewrite addMessage_unfold.
  destruct (waitingConsumers (the_queue q st)); simpl;
    rewrite dom_insert_L; set_solver.
Qed.

Lemma getMessage_dom q timeout st :
  dom (queues (getMessage q timeout st).1) = dom (queues st) ∪ {[q]}.
Proof.
  rewrite getMessage_unfold.
  destruct (messages (the_queue q st)); simpl;
    rewrite dom_insert_L; set_solver.
Qed.

Lemma fireTimer_dom t st : dom (queues (fireTimer t st)) = dom (queues st).
Proof.
  unfold fireTimer. destruct (timers st !! t) as [tm|]; [|done].
  case_bool_decide; [|done]. unfold onTimeout. simpl.
  destruct (queues st !! cb_queue tm) as [Q|] eqn:HQ; [|done].
  destruct (findIndex t (waitingConsumers Q)); [|done]. simpl.
  rewrite dom_insert_L.
  assert (cb_queue tm ∈ dom (queues st)) by (apply elem_of_dom; eauto).
  set_solver.
Qed.

Lemma step_dom e st :
  dom (queues (step e st)) =
  dom (queues st) ∪ from_option singleton ∅ (requested e).
Proof.
  destruct e as [q content|q m|q timeout|t|d]; simpl.
  - by rewrite addMessage_dom.
  - by rewrite addMessage_dom.
  - by rewrite getMessage_dom.
  - rewrite fireTimer_dom. set_solver.
  - set_solver.
Qed.

(** X1: the registry creates a queue when a request first names it and never
    removes one: after any execution its names are the names it had and the
    names the submits and receives used; timers and the clock add none. *)
Theorem registry_only_grows evs st :
  dom (queues (run evs st)) = dom (queues st) ∪ named evs.
Proof.
  revert st. induction evs as [|e evs IH]; intros st; simpl.
  - unfold named. simpl. set_solver.
  - rewrite IH, step_dom. unfold named. simpl.
    destruct (requested e); simpl; set_solver.
Qed.


(** ** No message is lost, duplicated or overtaken *)

Lemma the_queue_frame e q st :
  touched e st ≠ Some q → the_queue q (step e st) = the_queue q st.
Proof. intros H. unfold the_queue. by rewrite step_frame. Qed.

Lemma fireTimer_messages t q st :
  messages (the_queue q (fireTimer t st)) = messages (the_queue q st).
Proof.
  unfold fireTimer. destruct (timers st !! t) as [tm|]; [|done].
  case_bool_decide; [|done]. unfold onTimeout, the_queue. simpl.
  destruct (queues st !! cb_queue tm) as [Q|] eqn:HQ; [|done].
  destruct (findIndex t (waitingConsumers Q)); [|done]. simpl.
  destruct (decide (cb_queue tm = q)) as [<-|Hne].
  - by rewrite lookup_insert_eq, HQ.
  - by rewrite lookup_insert_ne.
Qed.

Lemma submit_flow q a m st :
  let fl := if decide (a = q) then
              match waitingConsumers (the_queue q st) with
              | [] => [Enqueued m]
              | _ :: _ => [Handed m]
              end
            else [] in
  received_of fl ++ messages (the_queue q (addMessage a m st)) =
  messages (the_queue q st) ++ enqueued_of fl.
Proof.
  simpl. case_decide as Ha.
  - subst a. rewrite addMessage_unfold.
    destruct (waitingConsumers (the_queue q st)) as [|c rest]; simpl.
    + by rewrite (the_queue_insert st _ q
                    (mkQueue (messages (the_queue q st) ++ [m]) [])).
    + rewrite app_nil_r.
      by rewrite (the_queue_insert st _ q
                    (mkQueue (messages (the_queue q st)) rest)).
  - simpl. rewrite app_nil_r. unfold the_queue.
    by rewrite addMessage_frame.
Qed.

Lemma step_flow q e st :
  received_of (flow q e st) ++ messages (the_queue q (step e st)) =
  messages (the_queue q st) ++ enqueued_of (flow q e st).
Proof.
  destruct e as [a content|a m|a timeout|t|d]; simpl.
  - apply (submit_flow q a
             (mkMessage (randomUUID (uuid_calls st)) content (Some (now st)))
             {| queues := queues st; timers := timers st;
                next_promise := next_promise st;
                next_timer := next_timer st;
                uuid_calls := S (uuid_calls st); now := now st;
                trace := trace st |}).
  - apply submit_flow.
  - case_decide as Ha.
    + subst a. rewrite getMessage_unfold.
      destruct (messages (the_queue q st)) as [|m rest] eqn:Hm; simpl.
      * rewrite (the_queue_insert st _ q
                   (mkQueue [] (waitingConsumers (the_queue q st) ++
                      [mkConsumer (ResolveClosure (next_promise st))
                         (RejectClosure (next_promise st)) (next_timer st)])));
          done.
      * rewrite (the_queue_insert st _ q
                   (mkQueue rest (waitingConsumers (the_queue q st))));
          [|done]. simpl. by rewrite app_nil_r.
    + simpl. rewrite app_nil_r. unfold the_queue.
      by rewrite getMessage_frame.
  - by rewrite fireTimer_messages, app_nil_r.
  - by rewrite app_nil_r.
Qed.

Lemma run_trace_extends evs st :
  trace (run evs st) =
  trace st ++ drop (length (trace st)) (trace (run evs st)).
Proof.
  revert st. induction evs as [|e evs IH]; intros st; simpl.
  - by rewrite drop_all, app_nil_r.
  - rewrite (IH (step e st)) at 1. rewrite step_trace_eq.
    rewrite (IH (step e st)) at 2. rewrite step_trace_eq.
    rewrite <- !app_assoc. f_equal.
    by rewrite drop_app_length.
Qed.

Lemma flow_handed q e st :
  Some <$> handed_of (flow q e st) `sublist_of` res_value <$> new_calls e st.
Proof.
  assert (Hsub : ∀ a m,
    Some <$> handed_of
      (if decide (a = q) then
         match waitingConsumers (the_queue q st) with
         | [] => [Enqueued m]
         | _ :: _ => [Handed m]
         end
       else []) `sublist_of`
    res_value <$>
      match waitingConsumers (the_queue a st) with
      | consumer :: _ =>
          [mkResolution (resolver_promise (resolve consumer)) (Some m)
             ByResolveField (now st)]
      | [] => []
      end).
  { intros a m. case_decide as Ha; [subst a|apply sublist_nil_l].
    by destruct (waitingConsumers (the_queue q st)). }
  destruct e as [a content|a m|a timeout|t|d]; simpl.
  - apply Hsub.
  - apply Hsub.
  - case_decide; [|apply sublist_nil_l].
    destruct (getMessage a timeout st).2; apply sublist_nil_l.
  - apply sublist_nil_l.
  - apply sublist_nil_l.
Qed.

(** X2: at every queue and in every execution, whatever the interleaving of
    submits, receives and timers: the messages received at once, followed by
    the backlog that is left, are the backlog at the start followed by the
    messages the submits appended, in that order; and each message a submit
    handed to a waiter instead is the value of a [resolve] call the
    execution made. *)
Theorem messages_are_conserved q evs st :
  received_of (ledger q evs st) ++ messages (the_queue q (run evs st)) =
    messages (the_queue q st) ++ enqueued_of (ledger q evs st) ∧
  Some <$> handed_of (ledger q evs st) `sublist_of`
    res_value <$> drop (length (trace st)) (trace (run evs st)).
Proof.
  revert st. induction evs as [|e evs IH]; intros st; simpl.
  - split; [by rewrite app_nil_r|apply sublist_nil_l].
  - destruct (IH (step e st)) as [IH1 IH2].
    unfold received_of, enqueued_of, handed_of in *. rewrite !omap_app.
    split.
    + rewrite <- app_assoc, IH1, !app_assoc. f_equal. apply step_flow.
    + rewrite (run_trace_extends evs (step e st)), step_trace_eq.
      rewrite <- app_assoc, drop_app_length, !fmap_app.
      rewrite step_trace_eq in IH2.
      apply sublist_app; [apply flow_handed|done].
Qed.


(** ** Waiters are served in the order they came *)

Lemma submits_run q ms st : submits q ms st = run (EvAdd q <$> ms) st.
Proof.
  revert st. induction ms as [|m ms IH]; intros st; [done|]. simpl. apply IH.
Qed.

Lemma handoff_calls st q m c rest :
  wf st → waitingConsumers (the_queue q st) = c :: rest →
  calls (addMessage q m st) (resolver_promise (resolve c)) =
    [mkResolution (resolver_promise (resolve c)) (Some m) ByResolveField
       (now st)].
Proof.
  intros Hwf Hw.
  assert (Hc : c ∈ waitingConsumers (the_queue q st)) by (rewrite Hw; left).
  destruct (wf_waiter_pending st q c Hwf Hc) as (Hp & Hcalls & _).
  unfold calls. rewrite addMessage_unfold, Hw. simpl. rewrite calls_snoc.
  simpl. fold (calls st (resolver_promise (resolve c))).
  by rewrite Hp, Hcalls, decide_True.
Qed.

Lemma submits_shape q ms st :
  waitingConsumers (the_queue q (submits q ms st)) =
    drop (length ms) (waitingConsumers (the_queue q st)) ∧
  messages (the_queue q (submits q ms st)) =
    messages (the_queue q st) ++
      drop (length (waitingConsumers (the_queue q st))) ms ∧
  trace (submits q ms st) =
    trace st ++
      zip_with (λ c m, mkResolution (resolver_promise (resolve c)) (Some m)
                         ByResolveField (now st))
        (waitingConsumers (the_queue q st)) ms.
Proof.
  revert st. induction ms as [|m ms IH]; intros st; simpl.
  - rewrite drop_0, drop_nil, !app_nil_r.
    split_and!; [done..|]. by destruct (waitingConsumers _); rewrite app_nil_r.
  - destruct (IH (addMessage q m st)) as (IHw & IHm & IHt).
    rewrite IHw, IHm, IHt. clear IHw IHm IHt.
    rewrite addMessage_unfold.
    destruct (waitingConsumers (the_queue q st)) as [|c rest] eqn:Hw; simpl.
    + rewrite (the_queue_insert st _ q
                 (mkQueue (messages (the_queue q st) ++ [m]) [])) by done.
      simpl. rewrite drop_nil, drop_0, app_nil_r, <- app_assoc. done.
    + rewrite (the_queue_insert st _ q
                 (mkQueue (messages (the_queue q st)) rest)) by done.
      simpl. by rewrite <- app_assoc.
Qed.

(** X3: with waiters on a queue, a sequence of submits serves them oldest
    first: the i-th message settles the promise of the i-th waiter, the
    waiters that are left stay in order, and only the messages beyond the
    number of waiters reach the backlog, in order. *)
Theorem submits_serve_waiters_in_order st q ms :
  reachable st →
  let ws := waitingConsumers (the_queue q st) in
  let st' := submits q ms st in
  waitingConsumers (the_queue q st') = drop (length ms) ws ∧
  messages (the_queue q st') =
    messages (the_queue q st) ++ drop (length ws) ms ∧
  trace st' =
    trace st ++
      zip_with (λ c m, mkResolution (resolver_promise (resolve c)) (Some m)
                         ByResolveField (now st)) ws ms ∧
  ∀ i c m, ws !! i = Some c → ms !! i = Some m →
    promise_state st' (resolver_promise (resolve c)) = Some (Some m).
Proof.
  intros Hreach ws st'. destruct (submits_shape q ms st) as (Hw & Hm & Ht).
  split_and!; [done..|]. clear Hw Hm Ht. unfold ws, st'. clear ws st'.
  revert st Hreach. induction ms as [|m0 ms IH]; intros st Hreach i c m Hc Hm;
    [done|].
  destruct (waitingConsumers (the_queue q st)) as [|c0 rest] eqn:Hws; [done|].
  pose proof (reachable_wf st Hreach) as Hwf.
  assert (Hreach1 : reachable (addMessage q m0 st))
    by (by apply (reachable_run [EvAdd q m0])).
  simpl. destruct i as [|j]; simpl in Hc, Hm.
  - injection Hc as ->. injection Hm as ->.
    unfold promise_state. rewrite submits_run, resolved_stable.
    + by rewrite (handoff_calls st q m c rest Hwf Hws).
    + by apply reachable_wf.
    + by rewrite (handoff_calls st q m c rest Hwf Hws).
  - apply (IH _ Hreach1 j); [|done].
    destruct (submits_shape q [m0] st) as (Hw1 & _). simpl in Hw1.
    by rewrite Hw1, Hws.
Qed.


(** ** Receives beyond the backlog *)

Lemma getMessage_empty q timeout st :
  messages (the_queue q st) = [] →
  let st1 := (getMessage q timeout st).1 in
  (getMessage q timeout st).2 = Waiting (next_promise st) ∧
  the_queue q st1 =
    mkQueue [] (waitingConsumers (the_queue q st) ++
                  [new_consumer (next_promise st) (next_timer st)]) ∧
  timers st1 =
    <[next_timer st :=
        mkTimer q (next_promise st) (now st + timer_delay timeout)]>
      (timers st) ∧
  next_promise st1 = S (next_promise st) ∧
  next_timer st1 = S (next_timer st) ∧ now st1 = now st.
Proof.
  intros Hm. simpl. rewrite getMessage_unfold, Hm. simpl.
  split_and!; try done. by apply (the_queue_insert st).
Qed.

Lemma getMessage_nonempty q timeout st m rest :
  messages (the_queue q st) = m :: rest →
  let st1 := (getMessage q timeout st).1 in
  timers st1 = timers st ∧ next_promise st1 = next_promise st ∧
  next_timer st1 = next_timer st ∧ now st1 = now st.
Proof. intros Hm. simpl. by rewrite getMessage_unfold, Hm. Qed.

Lemma receives_cons q timeout timeouts st :
  receives q (timeout :: timeouts) st =
  ((receives q timeouts (getMessage q timeout st).1).1,
   (getMessage q timeout st).2
     :: (receives q timeouts (getMessage q timeout st).1).2).
Proof.
  simpl. destruct (getMessage q timeout st) as [st1 r]. simpl.
  by destruct (receives q timeouts st1).
Qed.

Lemma receives_timers_old q timeouts st t :
  (t < next_timer st)%nat →
  timers (receives q timeouts st).1 !! t = timers st !! t ∧
  (next_timer st ≤ next_timer (receives q timeouts st).1)%nat.
Proof.
  revert st. induction timeouts as [|timeout ts IH]; intros st Hlt;
    [done|].
  rewrite receives_cons. simpl.
  destruct (messages (the_queue q st)) as [|m rest] eqn:Hm.
  - destruct (getMessage_empty q timeout st Hm) as (_ & _ & Ht & _ & Hnt & _).
    destruct (IH (getMessage q timeout st).1) as [IH1 IH2]; [lia|].
    rewrite IH1, Ht, lookup_insert_ne by lia. split; [done|lia].
  - destruct (getMessage_nonempty q timeout st m rest Hm) as (Ht & _ & Hnt & _).
    destruct (IH (getMessage q timeout st).1) as [IH1 IH2]; [lia|].
    rewrite IH1, Ht. split; [done|lia].
Qed.

(** X4: receives on a queue take the backlog from its head while it lasts;
    each further receive gets the next fresh promise, joins the waiter list
    behind the waiters already there, and arms a timer of its own, due
    after its own timeout. *)
Theorem receives_beyond_backlog_wait_in_order q timeouts st :
  let backlog := messages (the_queue q st) in
  let n := length timeouts in
  let k := (n - length backlog)%nat in
  let st' := (receives q timeouts st).1 in
  (receives q timeouts st).2 =
    (Immediate <$> take n backlog) ++
    (Waiting <$> seq (next_promise st) k) ∧
  the_queue q st' =
    mkQueue (drop n backlog)
      (waitingConsumers (the_queue q st) ++
         ((λ i, new_consumer (next_promise st + i) (next_timer st + i))
            <$> seq 0 k)) ∧
  next_promise st' = (next_promise st + k)%nat ∧
  next_timer st' = (next_timer st + k)%nat ∧
  ∀ i timeout, timeouts !! (length backlog + i)%nat = Some timeout →
    timers st' !! (next_timer st + i)%nat =
      Some (mkTimer q (next_promise st + i)
              (now st + timer_delay timeout)).
Proof.
  simpl. revert st. induction timeouts as [|timeout ts IH]; intros st.
  - simpl. rewrite drop_0, app_nil_r, !Nat.add_0_r.
    split_and!; [done|by destruct (the_queue q st)|done..].
  - rewrite receives_cons. simpl.
    destruct (IH (getMessage q timeout st).1) as (IHr & IHq & IHp & IHt & IHm).
    destruct (messages (the_queue q st)) as [|m rest] eqn:Hm.
    + destruct (getMessage_empty q timeout st Hm)
        as (Hr & Hq & Htm & Hnp & Hnt & Hnow).
      rewrite IHr, IHq, IHp, IHt, Hr, Hq, Hnp, Hnt. simpl.
      rewrite Nat.sub_0_r, take_nil, drop_nil. simpl.
      split_and!; [done| |lia|lia|].
      * rewrite <- app_assoc. simpl. do 3 f_equal.
        { unfold new_consumer. by rewrite !Nat.add_0_r. }
        rewrite <- fmap_S_seq, <- list_fmap_compose.
        apply list_fmap_ext. intros _ i _. simpl.
        by rewrite !Nat.add_succ_r.
      * intros [|j] timeout' Hj; simpl in Hj.
        -- injection Hj as <-. rewrite Nat.add_0_r.
           destruct (receives_timers_old q ts (getMessage q timeout st).1
                       (next_timer st)) as [-> _]; [lia|].
           rewrite !Nat.add_0_r. by rewrite Htm, lookup_insert_eq.
        -- rewrite Hq in IHm. simpl in IHm.
           specialize (IHm j timeout' Hj).
           rewrite Hnt, Hnp, Hnow in IHm.
           by rewrite !Nat.add_succ_r.
    + destruct (getMessage_head q timeout st m rest Hm) as [Hr Hq].
      destruct (getMessage_nonempty q timeout st m rest Hm)
        as (Htm & Hnp & Hnt & Hnow).
      rewrite IHr, IHq, IHp, IHt, Hr, Hq, Hnp, Hnt. simpl.
      split_and!; [done..|].
      intros i timeout' Hi. rewrite Hq in IHm. simpl in IHm.
      specialize (IHm i timeout' Hi). by rewrite Hnt, Hnp, Hnow in IHm.
Qed.


(** ** The expiry of one timer *)

Lemma delete_split {A} (l : list A) i x :
  l !! i = Some x →
  ∃ before after, l = before ++ x :: after ∧ delete i l = before ++ after.
Proof.
  intros Hi. exists (take i l), (drop (S i) l).
  by rewrite take_drop_middle, delete_take_drop.
Qed.

(** X5: when the host runs a waiter's timer, the callback takes exactly that
    waiter out of its queue's list and settles its promise with [null]; the
    waiters before and after it keep their order, their pending promises and
    their armed timers, and the backlog and every other queue are left
    alone. *)
Theorem timer_expiry_removes_only_its_waiter st t tm :
  reachable st → timers st !! t = Some tm → due tm ≤ now st →
  let q := cb_queue tm in
  let st' := fireTimer t st in
  ∃ before c after,
    waitingConsumers (the_queue q st) = before ++ c :: after ∧
    timeoutId c = t ∧ resolver_promise (resolve c) = cb_resolve tm ∧
    the_queue q st' = mkQueue (messages (the_queue q st)) (before ++ after) ∧
    (∀ q', q' ≠ q → queues st' !! q' = queues st !! q') ∧
    timers st' = delete t (timers st) ∧
    promise_state st' (cb_resolve tm) = Some None ∧
    Forall (λ c', promise_state st' (resolver_promise (resolve c')) = None ∧
                  is_Some (timers st' !! timeoutId c')) (before ++ after).
Proof.
  intros Hreach Ht Hdue q st'. pose proof (reachable_wf st Hreach) as Hwf.
  assert (Hwf' : wf st') by (by apply wf_fireTimer).
  destruct (fireTimer_armed st t tm Hwf Ht Hdue)
    as (Q & i & c & HQ & Hi & Hid & Hst').
  fold st' q in Hst', HQ.
  destruct (delete_split _ _ _ Hi) as (before & after & Hl & Hdel).
  destruct (wf_timer st Hwf t tm Ht) as (Hres & _).
  assert (Hc : c ∈ waitingConsumers Q) by (by eapply list_elem_of_lookup_2).
  destruct (wf_waiter st Hwf q Q c HQ Hc) as (Hrc & _).
  assert (Hq' : the_queue q st' = mkQueue (messages Q) (before ++ after)).
  { apply (the_queue_insert st). by rewrite Hst', Hdel. }
  exists before, c, after. rewrite (the_queue_Some _ _ _ HQ).
  split_and!; [done|done| | done | | | |].
  - rewrite Hrc. simpl. congruence.
  - intros q' Hne. rewrite Hst'. simpl. by rewrite lookup_insert_ne.
  - by rewrite Hst'.
  - unfold promise_state, calls. rewrite Hst'. simpl. rewrite calls_snoc.
    simpl. fold (calls st (cb_resolve tm)).
    rewrite Hres, (wf_armed_no_calls st t tm Hwf Ht).
    by rewrite decide_True.
  - apply Forall_forall. intros c' Hc'.
    assert (Hin : c' ∈ waitingConsumers (the_queue q st'))
      by (by rewrite Hq').
    destruct (wf_waiter_pending st' q c' Hwf' Hin) as (Hp & Hcalls & d & Htm).
    split; [|by rewrite Htm]. apply promise_state_pending. by rewrite Hp.
Qed.


(** ** Timers and waiters *)

(** X6: in every reachable state the armed timers are exactly the timers of
    the consumers that wait in some queue's list: a waiter's timer is armed,
    with a callback that captured the waiter's queue and promise, and its
    promise is pending; no timer is armed for anything else; and no two
    waiters, in one list or in two, share a timer. *)
Theorem timers_match_waiters st :
  reachable st →
  (∀ t, is_Some (timers st !! t) ↔
        ∃ q c, c ∈ waitingConsumers (the_queue q st) ∧ timeoutId c = t) ∧
  (∀ q c, c ∈ waitingConsumers (the_queue q st) →
     promise_state st (resolver_promise (resolve c)) = None ∧
     reject c = RejectClosure (resolver_promise (resolve c)) ∧
     ∃ d, timers st !! timeoutId c =
            Some (mkTimer q (resolver_promise (resolve c)) d)) ∧
  (∀ q, NoDup (timeoutId <$> waitingConsumers (the_queue q st))) ∧
  (∀ q q' c c', c ∈ waitingConsumers (the_queue q st) →
     c' ∈ waitingConsumers (the_queue q' st) →
     timeoutId c = timeoutId c' → q = q').
Proof.
  intros Hreach. pose proof (reachable_wf st Hreach) as Hwf. split_and!.
  - intros t. split.
    + intros [tm Ht].
      destruct (wf_timer st Hwf t tm Ht) as (_ & _ & Q & c & HQ & Hc & Hid).
      exists (cb_queue tm), c. by rewrite (the_queue_Some _ _ _ HQ).
    + intros (q & c & Hc & <-).
      destruct (wf_waiter_pending st q c Hwf Hc) as (_ & _ & d & ->). eauto.
  - intros q c Hc.
    destruct (wf_waiter_pending st q c Hwf Hc) as (Hp & Hcalls & d & Ht).
    pose proof (the_queue_waiter _ _ _ Hc) as HQ.
    destruct (wf_waiter st Hwf _ _ _ HQ Hc) as (_ & Hrej & _).
    split_and!.
    + apply promise_state_pending. by rewrite Hp.
    + by rewrite Hp.
    + exists d. by rewrite Hp.
  - intros q. unfold the_queue.
    destruct (queues st !! q) as [Q|] eqn:HQ; simpl; [|constructor].
    by eapply wf_nodup.
  - intros q q' c c' Hc Hc' Heq.
    destruct (wf_waiter_pending st q c Hwf Hc) as (_ & _ & d & Ht).
    destruct (wf_waiter_pending st q' c' Hwf Hc') as (_ & _ & d' & Ht').
    rewrite Heq in Ht. congruence.
Qed.


(** ** Reading a decimal timeout *)

Lemma digit_char d :
  (d < 10)%N →
  digit_of (pretty_N_char d) = Some (Z.of_N d) ∧
  is_space (pretty_N_char d) = false ∧
  pretty_N_char d ≠ "-"%char ∧ pretty_N_char d ≠ "+"%char.
Proof.
  intros Hd.
  assert (d = 0 ∨ d = 1 ∨ d = 2 ∨ d = 3 ∨ d = 4 ∨ d = 5 ∨ d = 6 ∨ d = 7
          ∨ d = 8 ∨ d = 9)%N as Hcases by lia.
  repeat destruct Hcases as [->|Hcases]; try subst d; by vm_compute.
Qed.

Lemma pretty_N_go_app x s r :
  pretty_N_go x s +:+ r = pretty_N_go x (s +:+ r).
Proof.
  revert s. induction (N.lt_wf_0 x) as [x _ IH]; intros s.
  destruct (decide (x = 0)%N) as [->|Hx]; [by rewrite !pretty_N_go_0|].
  rewrite (pretty_N_go_step x s), (pretty_N_go_step x (s +:+ r)) by lia.
  rewrite IH; [done|]. apply N.div_lt; lia.
Qed.

Lemma pretty_N_go_head x s :
  (0 < x)%N →
  ∃ d s', (d < 10)%N ∧ pretty_N_go x s = String (pretty_N_char d) s'.
Proof.
  revert s. induction (N.lt_wf_0 x) as [x _ IH]; intros s Hx.
  rewrite pretty_N_go_step by done.
  destruct (decide (x `div` 10 = 0)%N) as [Hy|Hy].
  - rewrite Hy, pretty_N_go_0. eexists _, _. split; [|done].
    by apply N.mod_lt.
  - apply IH; [by apply N.div_lt|]. by apply N.neq_0_lt_0.
Qed.

Lemma digits_value_pretty_go x :
  (0 < x)%N →
  ∃ k : nat, ∀ s acc,
    digits_value acc (pretty_N_go x s) =
    digits_value (Some (default 0 acc * 10 ^ Z.of_nat k + Z.of_N x)) s.
Proof.
  induction (N.lt_wf_0 x) as [x _ IH]; intros Hx.
  assert (Hd : (x `mod` 10 < 10)%N) by (by apply N.mod_lt).
  destruct (digit_char _ Hd) as (Hdig & _).
  pose proof (N.div_mod x 10 ltac:(done)) as Hdm.
  destruct (decide (x `div` 10 = 0)%N) as [Hy|Hy].
  - exists 1%nat. intros s acc. rewrite pretty_N_go_step by done.
    rewrite Hy, pretty_N_go_0. simpl. rewrite Hdig. do 2 f_equal. lia.
  - destruct (IH (x `div` 10)%N) as [k Hk];
      [by apply N.div_lt|by apply N.neq_0_lt_0|].
    exists (S k). intros s acc. rewrite pretty_N_go_step by done.
    rewrite Hk. simpl. rewrite Hdig. do 2 f_equal.
    rewrite Nat2Z.inj_succ, Z.pow_succ_r by lia. lia.
Qed.

Lemma digits_value_stops v rest :
  starts_with_digit rest = false → digits_value (Some v) rest = Some v.
Proof.
  destruct rest as [|c rest]; [done|]. simpl. intros H.
  apply bool_decide_eq_false in H. destruct (digit_of c); [|done].
  destruct H. eauto.
Qed.

Lemma digits_value_pretty (n : N) rest :
  starts_with_digit rest = false →
  digits_value None (pretty n +:+ rest) = Some (Z.of_N n).
Proof.
  intros Hrest. unfold pretty, pretty_N. case_decide as Hn.
  - subst n. simpl. by apply digits_value_stops.
  - destruct (digits_value_pretty_go n) as [k Hk]; [lia|].
    rewrite pretty_N_go_app, Hk. simpl. by apply digits_value_stops.
Qed.

Lemma pretty_N_head (n : N) :
  ∃ d s', (d < 10)%N ∧ pretty n = String (pretty_N_char d) s'.
Proof.
  unfold pretty, pretty_N. case_decide as Hn.
  - by exists 0%N, "".
  - apply pretty_N_go_head. lia.
Qed.

Lemma trim_start_spaces ws s :
  only_spaces ws = true → trim_start (ws +:+ s) = trim_start s.
Proof.
  induction ws as [|c ws IH]; [done|]. simpl.
  intros [Hc Hws]%andb_true_iff. rewrite Hc. by apply IH.
Qed.

Lemma parseInt_natural (n : N) rest :
  starts_with_digit rest = false →
  parseInt (pretty n +:+ rest) = Num (Z.of_N n) ∧
  parseInt ("-" +:+ pretty n +:+ rest) = Num (- Z.of_N n).
Proof.
  intros Hrest. pose proof (digits_value_pretty n rest Hrest) as Hv.
  destruct (pretty_N_head n) as (d & s' & Hd & Hs).
  destruct (digit_char d Hd) as (_ & Hsp & Hm & Hp).
  split.
  - unfold parseInt. rewrite Hs in Hv |- *. simpl in Hv |- *. rewrite Hsp.
    assert (Hsign :
      match String (pretty_N_char d) (s' +:+ rest) with
      | String "-" r => (-1, r)
      | String "+" r => (1, r)
      | _ => (1, String (pretty_N_char d) (s' +:+ rest))
      end = (1, String (pretty_N_char d) (s' +:+ rest))).
    { destruct (pretty_N_char d) as [[] [] [] [] [] [] [] []]; try done. }
    rewrite Hsign. simpl. simpl in Hv. rewrite Hv. f_equal. lia.
  - change (parseInt ("-" +:+ pretty n +:+ rest)) with
      (match digits_value None (pretty n +:+ rest) with
       | Some v => Num (-1 * v)
       | None => NaN
       end).
    rewrite Hv. f_equal; lia.
Qed.

(** X7: [parseInt] reads back the decimal numeral of every integer of
    magnitude at most 2^53, which a JavaScript number holds exactly, after
    any of the white space of [is_space] and before any text that does not
    start with a digit; so a GET whose [timeout] parameter is such a
    numeral, "0" and negative numerals included, calls getMessage with
    exactly that number. *)
Theorem parseInt_reads_decimal_numerals ws (z : Z) rest queueName st :
  only_spaces ws = true → starts_with_digit rest = false →
  - 9007199254740992 ≤ z ≤ 9007199254740992 →
  parseInt (ws +:+ pretty z +:+ rest) = Num z ∧
  get_timeout (Some (pretty z +:+ rest)) = Num z ∧
  handle_get queueName (Some (pretty z +:+ rest)) st =
    getMessage queueName (Num z) st.
Proof.
  intros Hws Hrest _.
  assert (Hp : parseInt (pretty z +:+ rest) = Num z).
  { destruct z as [|p|p].
    - change (pretty 0) with (pretty 0%N).
      by destruct (parseInt_natural 0%N rest Hrest) as [-> _].
    - change (pretty (Z.pos p)) with (pretty (N.pos p)).
      by destruct (parseInt_natural (Npos p) rest Hrest) as [-> _].
    - change (pretty (Z.neg p) +:+ rest)
        with ("-" +:+ pretty (N.pos p) +:+ rest).
      by destruct (parseInt_natural (Npos p) rest Hrest) as [_ ->]. }
  assert (Ht : get_timeout (Some (pretty z +:+ rest)) = Num z).
  { unfold get_timeout. destruct (pretty z +:+ rest) eqn:Hs; [|done].
    rewrite <- Hs in Hp. exfalso. rewrite Hs in Hp. by vm_compute in Hp. }
  split_and!.
  - unfold parseInt in *. by rewrite trim_start_spaces.
  - done.
  - unfold handle_get. by rewrite Ht.
Qed.


(** ** A POST and the GET that receives it *)

Lemma handle_post_submit q body text st :
  post_content body = Some text →
  handle_post q body st =
    ((step (EvPost q text) st), PostOk (randomUUID (uuid_calls st))).
Proof. intros Hb. unfold handle_post. by rewrite Hb. Qed.

Lemma submit_the_queue q text st :
  waitingConsumers (the_queue q st) = [] →
  the_queue q (step (EvPost q text) st) =
    mkQueue (messages (the_queue q st) ++
               [mkMessage (randomUUID (uuid_calls st)) text (Some (now st))])
            [].
Proof.
  intros Hw. simpl.
  by rewrite (addMessage_no_waiter q _
    {| queues := queues st; timers := timers st;
       next_promise := next_promise st; next_timer := next_timer st;
       uuid_calls := S (uuid_calls st); now := now st; trace := trace st |}).
Qed.

Lemma post_handoff q text st c rest :
  waitingConsumers (the_queue q st) = c :: rest →
  the_queue q (step (EvPost q text) st) =
    mkQueue (messages (the_queue q st)) rest ∧
  timers (step (EvPost q text) st) = delete (timeoutId c) (timers st).
Proof.
  intros Hw.
  set (b := {| queues := queues st; timers := timers st;
               next_promise := next_promise st; next_timer := next_timer st;
               uuid_calls := S (uuid_calls st); now := now st;
               trace := trace st |}).
  change (step (EvPost q text) st) with
    (addMessage q
       (mkMessage (randomUUID (uuid_calls st)) text (Some (now st))) b).
  assert (Hb : the_queue q b = the_queue q st) by done.
  rewrite addMessage_unfold, Hb, Hw. simpl.
  split; [|done]. by apply (the_queue_insert st).
Qed.

(** X8: a POST whose body has no content to read throws before anything is
    touched: the state is as before and no UUID is used.  Any other POST to
    a queue without waiters is answered the id of a message that carries
    the content read from the body and the time of the request, and that
    message comes back, unchanged, from the receive that follows the
    receives of the messages that were in the backlog before it. *)
Theorem posted_message_comes_back st q body timeouts :
  waitingConsumers (the_queue q st) = [] →
  length timeouts = S (length (messages (the_queue q st))) →
  match post_content body with
  | None => handle_post q body st = (st, PostThrows)
  | Some text =>
      let m := mkMessage (randomUUID (uuid_calls st)) text (Some (now st)) in
      let st1 := (handle_post q body st).1 in
      (handle_post q body st).2 = PostOk (id m) ∧
      (receives q timeouts st1).2 =
        Immediate <$> (messages (the_queue q st) ++ [m]) ∧
      the_queue q (receives q timeouts st1).1 = mkQueue [] [] ∧
      trace (receives q timeouts st1).1 = trace st
  end.
Proof.
  intros Hw Hlen. destruct (post_content body) as [text|] eqn:Hb.
  - rewrite (handle_post_submit q body text st Hb). simpl fst. simpl snd.
    pose proof (submit_the_queue q text st Hw) as Hq.
    destruct (receives_backlog q timeouts (step (EvPost q text) st))
      as [Hr Hq'].
    { rewrite Hq. simpl. rewrite length_app. simpl. lia. }
    rewrite Hq in Hr, Hq'. simpl in Hr, Hq'.
    assert (Hn : length timeouts =
                 length (messages (the_queue q st) ++
                   [mkMessage (randomUUID (uuid_calls st)) text
                      (Some (now st))])).
    { rewrite length_app. simpl. lia. }
    rewrite Hn, firstn_all in Hr. rewrite Hn, drop_all in Hq'.
    split_and!; [done..|].
    assert (Htr : ∀ ts s, trace (receives q ts s).1 = trace s).
    { induction ts as [|t ts IH]; intros s; [done|].
      rewrite receives_cons. simpl. by rewrite IH, getMessage_trace. }
    rewrite Htr. simpl. rewrite addMessage_unfold. simpl.
    unfold the_queue in Hw |- *. simpl. by rewrite Hw.
  - unfold handle_post. by rewrite Hb.
Qed.

(** ** A GET that waits and the POST that answers it *)

(** X9: a GET on a queue that is empty and has no waiter waits on a fresh
    promise; a POST to the queue that comes later, however much time has
    passed, as long as the host has not run the GET's timer, settles the
    promise with its message, so the GET answers 200 with the message whose
    id the POST is answered; the message never enters the backlog, the
    GET's timer is cancelled, and nothing that follows changes the
    answer. *)
Theorem waiting_get_is_answered_by_post st q query d text evs :
  reachable st →
  messages (the_queue q st) = [] → waitingConsumers (the_queue q st) = [] →
  let p := next_promise st in
  let st1 := (handle_get q query st).1 in
  let st2 := step (EvPost q text) (tick d st1) in
  let m := mkMessage (randomUUID (uuid_calls st)) text
             (Some (now st + Z.of_nat d)) in
  (handle_get q query st).2 = Waiting p ∧
  promise_state st1 p = None ∧
  (submit q text (tick d st1)).2 = id m ∧
  promise_state st2 p = Some (Some m) ∧
  respond <$> promise_state st2 p = Some (Ok200 m) ∧
  the_queue q st2 = mkQueue [] [] ∧
  timers st2 = timers st ∧
  promise_state (run evs st2) p = Some (Some m).
Proof.
  intros Hreach Hm Hw p st1 st2 m.
  pose proof (reachable_wf st Hreach) as Hwf.
  unfold handle_get in *.
  destruct (getMessage_empty q (get_timeout query) st Hm)
    as (Hr & Hq1 & Ht1 & Hnp & Hnt & Hnow).
  fold st1 in Hq1, Ht1, Hnp, Hnt, Hnow.
  assert (Hwf1 : wf st1) by (by apply wf_getMessage).
  assert (Hwf2 : wf st2) by (by apply wf_step, wf_tick).
  assert (Hcalls1 : calls st1 p = []).
  { unfold st1, calls. rewrite getMessage_trace.
    by apply wf_fresh_no_calls. }
  assert (Huuid : uuid_calls st1 = uuid_calls st).
  { unfold st1. rewrite getMessage_unfold, Hm. done. }
  assert (Hfresh : timers st !! next_timer st = None).
  { destruct (timers st !! next_timer st) as [tm|] eqn:Ht; [|done].
    destruct (wf_timer st Hwf _ _ Ht) as (_ & ? & _). lia. }
  assert (Hq2 : the_queue q (tick d st1) =
                mkQueue [] [new_consumer p (next_timer st)]).
  { change (the_queue q (tick d st1)) with (the_queue q st1).
    by rewrite Hq1, Hw. }
  assert (Hcalls2 : calls st2 p = [mkResolution p (Some m) ByResolveField
                                     (now st + Z.of_nat d)]).
  { unfold st2. rewrite step_calls_eq. simpl.
    change (calls (tick d st1) p) with (calls st1 p). rewrite Hcalls1.
    rewrite Hq2. simpl. rewrite Huuid, Hnow.
    by rewrite filter_cons, decide_True. }
  split_and!.
  - done.
  - by apply promise_state_pending.
  - simpl. by rewrite Huuid.
  - unfold promise_state. by rewrite Hcalls2.
  - unfold promise_state. by rewrite Hcalls2.
  - unfold st2.
    destruct (post_handoff q text (tick d st1) _ _
                (f_equal waitingConsumers Hq2)) as [-> _].
    by rewrite Hq2.
  - unfold st2.
    destruct (post_handoff q text (tick d st1) _ _
                (f_equal waitingConsumers Hq2)) as [_ ->].
    simpl. rewrite Ht1. by rewrite delete_insert_id.
  - unfold promise_state. rewrite resolved_stable; [|done|].
    + by rewrite Hcalls2.
    + by rewrite Hcalls2.
Qed.

(** ** When every timer has run *)

Lemma fires_messages q ts st :
  messages (the_queue q (run (EvFire <$> ts) st)) = messages (the_queue q st).
Proof.
  revert st. induction ts as [|t ts IH]; intros st; [done|].
  simpl. by rewrite IH, fireTimer_messages.
Qed.

(** X10: once the host has let every armed timer run, no consumer is waiting on
    any queue and every promise a receive ever handed out is settled; the
    expiries take no message from any backlog, and a promise that was
    settled before keeps its value. *)
Theorem after_all_timers_nobody_waits st :
  reachable st →
  let st' := expire_all st in
  (∀ q, waitingConsumers (the_queue q st') = []) ∧
  timers st' = ∅ ∧
  (∀ q, messages (the_queue q st') = messages (the_queue q st)) ∧
  (∀ p, (p < next_promise st)%nat → is_Some (promise_state st' p)) ∧
  (∀ p v, promise_state st p = Some v → promise_state st' p = Some v).
Proof.
  intros Hreach st'. pose proof (reachable_wf st Hreach) as Hwf.
  assert (Hreach' : reachable st').
  { unfold st'. rewrite expire_all_run. by apply reachable_run. }
  pose proof (reachable_wf st' Hreach') as Hwf'.
  assert (Hnone : ∀ t, timers st' !! t = None)
    by (intros t; by apply expire_all_timers).
  split_and!.
  - intros q. destruct (waitingConsumers (the_queue q st')) as [|c l] eqn:Hws;
      [done|].
    assert (Hc : c ∈ waitingConsumers (the_queue q st'))
      by (rewrite Hws; left).
    destruct (wf_waiter_pending st' q c Hwf' Hc) as (_ & _ & d & Ht).
    by rewrite Hnone in Ht.
  - apply map_eq. intros t. by rewrite Hnone, lookup_empty.
  - intros q. unfold st', expire_all. by rewrite fires_messages.
  - intros p Hp.
    assert (Hlen : length (calls st' p) = 1%nat).
    { apply wf_exactly_one; [done| |done].
      unfold st'. rewrite expire_all_run.
      pose proof (run_counters
        (EvTick (Z.to_nat (latest_due st - now st))
           :: (EvFire <$> seq 0 (next_timer st))) st). lia. }
    unfold promise_state. destruct (calls st' p); [done|]. simpl. eauto.
  - intros p v Hv. unfold promise_state in *.
    destruct (calls st p) as [|r l] eqn:Hc; [done|].
    unfold st'. rewrite expire_all_run, resolved_stable, Hc; [done..|].
    by rewrite Hc.
Qed.

End Properties.

(** ** Executions on the concrete host *)

Lemma counter_uuid_inj n n' : counter_uuid n = counter_uuid n' → n = n'.
Proof. apply (inj pretty). Qed.

Lemma reachable_init : reachable (host:=node_host) init.
Proof. by exists []. Defined.

Lemma reachable_three_waiting :
  reachable (host:=node_host) three_waiting.
Proof.
  by exists [EvGet "orders" (Num 5000); EvGet "orders" (Num 6000);
             EvGet "invoices" (Num 100)].
Defined.

Lemma reachable_expired : reachable (host:=node_host) expired.
Proof.
  by exists [EvGet "orders" (Num 100); EvTick 100; EvFire 0%nat].
Defined.

(** The submit and the timer of one waiter, in both orders. *)
Example race_timer_first :
  let st := run (host:=node_host)
              [EvTick 5000; EvFire 0%nat; EvAdd "orders" (order 1 "hello")]
              one_waiting in
  trace st = [mkResolution 0 None ByTimeoutCallback 5000] ∧
  the_queue "orders" st = mkQueue [order 1 "hello"] [].
Proof. by vm_compute. Qed.

Example race_submit_first :
  let st := run (host:=node_host)
              [EvTick 5000; EvAdd "orders" (order 1 "hello"); EvFire 0%nat]
              one_waiting in
  trace st =
    [mkResolution 0 (Some (order 1 "hello")) ByResolveField 5000] ∧
  the_queue "orders" st = mkQueue [] [] ∧ timers st = ∅.
Proof. by vm_compute. Qed.

(** A receive of 5000 ms is served by the submit that comes 2000 ms later. *)
Example long_poll_served_early :
  let st := run (host:=node_host)
              [EvTick 2000; EvPost "orders" "hello"] one_waiting in
  trace st =
    [mkResolution 0 (Some (mkMessage "0" "hello" (Some 2000)))
       ByResolveField 2000].
Proof. by vm_compute. Qed.

Example parseInt_examples :
  parseInt "5000" = Num 5000 ∧ parseInt "  42ms" = Num 42 ∧
  parseInt "-7" = Num (-7) ∧ parseInt "abc" = NaN ∧ parseInt "-" = NaN.
Proof. by vm_compute. Qed.

(** ** The theorems at concrete executions *)

(** One waiter, its timer due, a submit and the timer racing. *)
Lemma waiter_resolved_exactly_once_witness :
  let evs := [EvTick 5000; EvAdd "orders" (order 1 "hello"); EvFire 0%nat] in
  let st2 := run (host:=node_host) evs one_waiting in
  getMessage (host:=node_host) "orders" (Num 5000) init
    = (one_waiting, Waiting 0) ∧
  (length (calls st2 0) ≤ 1)%nat ∧
  ∃ r, calls (expire_all (host:=node_host) st2) 0 = [r] ∧
       ((∃ m, res_value r = Some m ∧ res_by r = ByResolveField) ∨
        (res_value r = None ∧ res_by r = ByTimeoutCallback)).
Proof.
  intros evs st2. split; [reflexivity|].
  pose proof (waiter_resolved_exactly_once (host:=node_host)
                init "orders" (Num 5000) one_waiting 0%nat evs
                reachable_init eq_refl) as (_ & Hle & _ & _ & _ & Hone).
  split; [exact Hle|exact Hone].
Defined.

(** Three orders submitted, then received. *)
Lemma receives_in_submission_order_witness :
  waitingConsumers (the_queue "orders" init) = [] ∧
  (receives (host:=node_host) "orders" [Num 0; Num 0; Num 0]
     (submits "orders" three_orders init)).2 =
  [Immediate (order 1 "Order #1"); Immediate (order 2 "Order #2");
   Immediate (order 3 "Order #3")].
Proof.
  split; [reflexivity|].
  assert (Hlen : (length [Num 0; Num 0; Num 0] ≤
                  length (messages (the_queue "orders" init) ++ three_orders))%nat)
    by (vm_compute; lia).
  pose proof (receives_in_submission_order (host:=node_host) "orders"
                three_orders [Num 0; Num 0; Num 0] init eq_refl Hlen)
    as (_ & Hr & _).
  exact Hr.
Defined.

(** A submit to "orders" while two consumers wait on it. *)
Lemma submit_hands_to_oldest_waiter_witness :
  waitingConsumers (the_queue "orders" three_waiting) =
    [mkConsumer (ResolveClosure 0) (RejectClosure 0) 0;
     mkConsumer (ResolveClosure 1) (RejectClosure 1) 1] ∧
  queues (addMessage "orders" (order 1 "hello") three_waiting) !! "orders" =
    Some (mkQueue []
            [mkConsumer (ResolveClosure 1) (RejectClosure 1) 1]) ∧
  promise_state (addMessage "orders" (order 1 "hello") three_waiting) 0 =
    Some (Some (order 1 "hello")).
Proof.
  split; [reflexivity|].
  pose proof (submit_hands_to_oldest_waiter (host:=node_host)
                three_waiting "orders" (order 1 "hello") _ _
                reachable_three_waiting eq_refl)
    as (Hq & _ & _ & _ & _ & _ & Hp & _).
  split; [exact Hq|exact Hp].
Defined.

(** A submit, two receives and an expiry from the empty registry. *)
Lemma backlog_and_waiters_never_both_witness :
  backlog_xor_waiters init ∧
  backlog_xor_waiters
    (run (host:=node_host)
       [EvPost "orders" "Order #1"; EvGet "orders" (Num 0);
        EvGet "orders" (Num 100); EvTick 100; EvFire 0%nat] init).
Proof.
  split; [exact backlog_xor_waiters_init|].
  apply (backlog_and_waiters_never_both (host:=node_host) init _ "orders"
           (order 1 "Order #1") (Num 0)).
  exact backlog_xor_waiters_init.
Defined.


(** A submit to "invoices" while consumers wait on "orders". *)
Lemma queues_are_isolated_witness :
  touched (EvAdd "invoices" (order 1 "Invoice #1")) three_waiting
    ≠ Some "orders" ∧
  queues (addMessage "invoices" (order 1 "Invoice #1") three_waiting)
    !! "orders" = queues three_waiting !! "orders" ∧
  Forall (λ c, promise_state
                 (addMessage "invoices" (order 1 "Invoice #1") three_waiting)
                 (resolver_promise (resolve c)) = None)
         (waitingConsumers (the_queue "orders" three_waiting)).
Proof.
  assert (Hne : ∀ st, touched (EvAdd "invoices" (order 1 "Invoice #1")) st
                      ≠ Some "orders") by (intros st; discriminate).
  split; [apply Hne|].
  pose proof (queues_are_isolated (host:=node_host) three_waiting
                (EvAdd "invoices" (order 1 "Invoice #1")) "orders"
                reachable_three_waiting (Hne _)) as (Hq & _ & Hw).
  split; [exact Hq|exact Hw].
Defined.

(** The third submit is answered the third id; the ids of an execution. *)
Lemma submit_returns_fresh_id_witness :
  (submit (host:=node_host) "orders" "Order #3"
     (run (host:=node_host)
        [EvPost "orders" "Order #1"; EvPost "orders" "Order #2"] init)).2
    = "2" ∧
  NoDup (post_ids (host:=node_host)
           [EvPost "orders" "Order #1"; EvGet "orders" (Num 0);
            EvPost "invoices" "Invoice #1"; EvPost "orders" "Order #2"] init).
Proof.
  split; [reflexivity|].
  pose proof (submit_returns_fresh_id (host:=node_host) init
                "orders" "Order #1"
                [EvPost "orders" "Order #1"; EvGet "orders" (Num 0);
                 EvPost "invoices" "Invoice #1"; EvPost "orders" "Order #2"]
                counter_uuid_inj) as H.
  apply H.
Defined.

(** After the expiry no queue has a waiter. *)
Lemma expired_no_waiter q : waitingConsumers (the_queue q expired) = [].
Proof.
  unfold the_queue.
  destruct (decide (q = "orders")) as [->|Hq]; [by vm_compute|].
  replace (queues expired) with
    (<["orders" := mkQueue [] []]> (∅ : gmap string Queue))
    by (by vm_compute).
  by rewrite lookup_insert_ne, lookup_empty.
Qed.

(** The submit that resolves the oldest waiter removes it; the timer of a
    waiter that has expired, run once more, changes nothing. *)
Lemma resolution_goes_with_removal_witness :
  let st' := step (host:=node_host)
               (EvAdd "orders" (order 1 "hello")) three_waiting in
  calls st' 0 ≠ calls three_waiting 0 ∧
  waiting three_waiting 0 ∧ ¬ waiting st' 0 ∧ length (calls st' 0) = 1%nat ∧
  fireTimer 0 expired = expired.
Proof.
  intros st'.
  assert (Hchg : calls st' 0 ≠ calls three_waiting 0) by (by vm_compute).
  split; [exact Hchg|].
  pose proof (resolution_goes_with_removal (host:=node_host)
                three_waiting (EvAdd "orders" (order 1 "hello")) 0%nat
                reachable_three_waiting) as [H _].
  destruct (H Hchg) as (Hw & Hg & _ & Hone).
  split; [exact Hw|]. split; [exact Hg|]. split; [exact Hone|].
  pose proof (resolution_goes_with_removal (host:=node_host)
                expired (EvTick 0) 0%nat reachable_expired) as (_ & _ & Hf).
  apply Hf. intros q c Hc. rewrite expired_no_waiter in Hc.
  by apply elem_of_nil in Hc.
Defined.

(** ** Further executions on the concrete host *)

(** Three submits to "orders" while two consumers wait on it. *)
Lemma submits_serve_waiters_in_order_witness :
  let ms := [order 1 "first"; order 2 "second"; order 3 "third"] in
  let st' := submits "orders" ms three_waiting in
  promise_state st' 0 = Some (Some (order 1 "first")) ∧
  promise_state st' 1 = Some (Some (order 2 "second")) ∧
  waitingConsumers (the_queue "orders" st') = [] ∧
  messages (the_queue "orders" st') = [order 3 "third"].
Proof.
  intros ms st'.
  pose proof (submits_serve_waiters_in_order (host:=node_host) three_waiting
                "orders" ms reachable_three_waiting) as (Hw & Hm & _ & Hp).
  split; [exact (Hp 0%nat _ _ eq_refl eq_refl)|].
  split; [exact (Hp 1%nat _ _ eq_refl eq_refl)|].
  split; [exact Hw|exact Hm].
Defined.

(** The timer of the second of two consumers that wait on "orders". *)
Lemma timer_expiry_removes_only_its_waiter_witness :
  let st := run (host:=node_host) [EvTick 3000; EvTick 3000] three_waiting in
  let tm := mkTimer "orders" 1 6000 in
  timers st !! 1%nat = Some tm ∧ due tm ≤ now st ∧
  ∃ before c after,
    waitingConsumers (the_queue "orders" st) = before ++ c :: after ∧
    timeoutId c = 1%nat ∧ resolver_promise (resolve c) = 1%nat ∧
    the_queue "orders" (fireTimer 1 st) =
      mkQueue (messages (the_queue "orders" st)) (before ++ after) ∧
    (∀ q', q' ≠ "orders" →
       queues (fireTimer 1 st) !! q' = queues st !! q') ∧
    timers (fireTimer 1 st) = delete 1%nat (timers st) ∧
    promise_state (fireTimer 1 st) 1 = Some None ∧
    Forall (λ c', promise_state (fireTimer 1 st)
                    (resolver_promise (resolve c')) = None ∧
                  is_Some (timers (fireTimer 1 st) !! timeoutId c'))
           (before ++ after).
Proof.
  intros st tm.
  assert (Ht : timers st !! 1%nat = Some tm) by reflexivity.
  assert (Hdue : due tm ≤ now st) by (by vm_compute).
  split; [exact Ht|]. split; [exact Hdue|].
  assert (Hreach : reachable (host:=node_host) st).
  { apply (reachable_run (host:=node_host) [EvTick 3000; EvTick 3000]).
    exact reachable_three_waiting. }
  exact (timer_expiry_removes_only_its_waiter (host:=node_host) st 1%nat tm
           Hreach Ht Hdue).
Defined.

(** Three consumers waiting on two queues. *)
Lemma timers_match_waiters_witness :
  (∀ t, is_Some (timers three_waiting !! t) ↔
        ∃ q c, c ∈ waitingConsumers (the_queue q three_waiting) ∧
               timeoutId c = t) ∧
  (∀ q, NoDup (timeoutId <$> waitingConsumers (the_queue q three_waiting))).
Proof.
  pose proof (timers_match_waiters (host:=node_host) three_waiting
                reachable_three_waiting) as (Ht & _ & Hn & _).
  split; [exact Ht|exact Hn].
Defined.

(** The timeout " 5000ms". *)
Lemma parseInt_reads_decimal_numerals_witness :
  only_spaces " " = true ∧ starts_with_digit "ms" = false ∧
  - 9007199254740992 ≤ 5000 ≤ 9007199254740992 ∧
  parseInt " 5000ms" = Num 5000 ∧
  get_timeout (Some "5000ms") = Num 5000.
Proof.
  assert (Hz : - 9007199254740992 ≤ 5000 ≤ 9007199254740992) by lia.
  split; [reflexivity|]. split; [reflexivity|]. split; [exact Hz|].
  pose proof (parseInt_reads_decimal_numerals (host:=node_host) " " 5000 "ms"
                "orders" init eq_refl eq_refl Hz) as (Hp & Hg & _).
  split; [exact Hp|exact Hg].
Defined.

(** A POST of an object without content to "orders", then a GET. *)
Lemma posted_message_comes_back_witness :
  let body := BodyObject None "{}" in
  let m := mkMessage "0" "{}" (Some 0) in
  waitingConsumers (the_queue "orders" init) = [] ∧
  (handle_post (host:=node_host) "orders" body init).2 = PostOk "0" ∧
  (receives (host:=node_host) "orders" [Num 0]
     (handle_post (host:=node_host) "orders" body init).1).2 =
    [Immediate m].
Proof.
  intros body m. split; [reflexivity|].
  pose proof (posted_message_comes_back (host:=node_host) init "orders" body
                [Num 0] eq_refl eq_refl) as (Hr & Hg & _).
  split; [exact Hr|exact Hg].
Defined.

(** A GET that waits on "orders", answered by a POST 2000 ms later. *)
Lemma waiting_get_is_answered_by_post_witness :
  let st1 := (handle_get (host:=node_host) "orders" (Some "5000") init).1 in
  let st2 := step (host:=node_host) (EvPost "orders" "hello")
               (tick 2000 st1) in
  let m := mkMessage "0" "hello" (Some 2000) in
  messages (the_queue "orders" init) = [] ∧
  (handle_get (host:=node_host) "orders" (Some "5000") init).2 = Waiting 0 ∧
  respond <$> promise_state st2 0 = Some (Ok200 m) ∧
  promise_state
    (run (host:=node_host) [EvTick 4000; EvFire 0%nat] st2) 0 =
    Some (Some m).
Proof.
  intros st1 st2 m. split; [reflexivity|].
  pose proof (waiting_get_is_answered_by_post (host:=node_host) init "orders"
                (Some "5000") 2000%nat "hello" [EvTick 4000; EvFire 0%nat]
                reachable_init eq_refl eq_refl)
    as (Hg & _ & _ & _ & Hr & _ & _ & Hs).
  split; [exact Hg|]. split; [exact Hr|exact Hs].
Defined.

(** Three consumers waiting, and every timer run. *)
Lemma after_all_timers_nobody_waits_witness :
  let st' := expire_all (host:=node_host) three_waiting in
  (∀ q, waitingConsumers (the_queue q st') = []) ∧ timers st' = ∅ ∧
  is_Some (promise_state st' 2).
Proof.
  intros st'.
  pose proof (after_all_timers_nobody_waits (host:=node_host) three_waiting
                reachable_three_waiting) as (Hw & Ht & _ & Hp & _).
  split; [exact Hw|]. split; [exact Ht|]. apply Hp. vm_compute. lia.
Defined.

(** ** Where the specification and the code part *)


(** A timeout that is no number: [parseInt] answers [NaN], and the handler
    calls getMessage with it. *)
Lemma malformed_timeout_reaches_core :
  parseInt "abc" = NaN ∧
  get_timeout (Some "abc") = NaN ∧
  handle_get (host:=node_host) "orders" (Some "abc") init =
    getMessage (host:=node_host) "orders" NaN init ∧
  ¬ malformed_timeout_is_default.
Proof.
  split_and!; [by vm_compute..|].
  intros H. specialize (H "abc" eq_refl). vm_compute in H. discriminate.
Qed.
